(** * ipa_import: reconciliation of a CSV roster with a FreeIPA directory

    A shallow embedding of [ipa_import.py] and the properties of its
    planning functions.

    Conventions of the embedding.
    - [read_csv_file] decodes the roster as Latin-1, so every character of a
      CSV field is one code point in 0..255; a character is an [ascii] (the
      8-bit code point) and a Python [str] is a [string].  Directory values
      are modelled over the same alphabet.
    - A Python [dict] is a [gmap], a Python [set] a [gset].  Iterating a dict
      or a set visits every key once.  The definitions named after the
      source visit in the order of [map_to_list] / [elements]; Python visits
      a dict in the order of insertion, so every statement that depends on
      the order is made on a variant that takes the order of the visit as an
      argument ([find_group_changes_in], [commit_changes_in]) and holds for
      every order that lists each item once.
    - [subprocess.call] is an oracle from the argument vector to the outcome
      of the call: an exit status, or [OSError] when the program cannot be
      started.  Functions that call it live in the monad [proc], which
      records the commands that were started.
    - [read_csv_file] and [parse_freeipa_output] only parse input; the
      embedding starts from the entries they yield. *)

From Stdlib Require Import Ascii String NArith.
From stdpp Require Import gmap strings list fin_maps.

Local Open Scope string_scope.

(** ** Python string methods on Latin-1 text *)

Module Str.

Definition code (c : ascii) : N := N_of_ascii c.

(** [str.isspace] on the Latin-1 range: TAB..CR, FS..US, SPACE, NEL, NBSP. *)
Definition is_space (c : ascii) : bool :=
  let n := code c in
  ((9 <=? n) && (n <=? 13) || (28 <=? n) && (n <=? 32)
   || (n =? 133) || (n =? 160))%N.

Fixpoint lstrip (p : ascii → bool) (s : string) : string :=
  match s with
  | EmptyString => EmptyString
  | String c s' => if p c then lstrip p s' else s
  end.

Fixpoint rstrip (p : ascii → bool) (s : string) : string :=
  match s with
  | EmptyString => EmptyString
  | String c s' =>
      match rstrip p s' with
      | EmptyString => if p c then EmptyString else String c EmptyString
      | r => String c r
      end
  end.

(** [s.strip(chars)]: [p] tells which characters are stripped. *)
Definition strip_with (p : ascii → bool) (s : string) : string :=
  rstrip p (lstrip p s).

(** [s.strip()] *)
Definition strip (s : string) : string := strip_with is_space s.

(** Prepend a character to the first piece of a split. *)
Definition cons_head (c : ascii) (l : list string) : list string :=
  match l with
  | [] => [String c EmptyString]
  | w :: ws => String c w :: ws
  end.

(** [s.split(sep)] for a one-character separator. *)
Fixpoint split (sep : ascii) (s : string) : list string :=
  match s with
  | EmptyString => [EmptyString]
  | String c s' =>
      if Ascii.eqb c sep then EmptyString :: split sep s'
      else cons_head c (split sep s')
  end.

(** [s.split(sep)] for a two-character separator [a b]. *)
Fixpoint split2 (a b : ascii) (s : string) : list string :=
  match s with
  | EmptyString => [EmptyString]
  | String c s' =>
      match s' with
      | String d s'' =>
          if Ascii.eqb c a && Ascii.eqb d b
          then EmptyString :: split2 a b s''
          else cons_head c (split2 a b s')
      | EmptyString => cons_head c (split2 a b s')
      end
  end.

Definition starts_word (s : string) : bool :=
  match s with
  | EmptyString => false
  | String d _ => negb (is_space d)
  end.

(** [s.split()]: the maximal runs of non-space characters. *)
Fixpoint words (s : string) : list string :=
  match s with
  | EmptyString => []
  | String c s' =>
      if is_space c then words s'
      else if starts_word s' then cons_head c (words s')
      else String c EmptyString :: words s'
  end.

(** [sep.join(l)] *)
Fixpoint join (sep : string) (l : list string) : string :=
  match l with
  | [] => EmptyString
  | [w] => w
  | w :: ws => w ++ sep ++ join sep ws
  end.

(** Apply [f] to every character and concatenate the results. *)
Fixpoint expand (f : ascii → string) (s : string) : string :=
  match s with
  | EmptyString => EmptyString
  | String c s' => f c ++ expand f s'
  end.

Fixpoint keep (p : ascii → bool) (s : string) : string :=
  match s with
  | EmptyString => EmptyString
  | String c s' => if p c then String c (keep p s') else keep p s'
  end.

Definition lower_char (c : ascii) : ascii :=
  let n := code c in
  if ((65 <=? n) && (n <=? 90)
      || (192 <=? n) && (n <=? 222) && negb (n =? 215))%N
  then ascii_of_N (n + 32) else c.

(** [s.lower()] *)
Definition lower (s : string) : string :=
  expand (λ c, String (lower_char c) EmptyString) s.

(** [s.replace(old, new)] for a one-character [old]. *)
Definition replace (old : ascii) (new : string) (s : string) : string :=
  expand (λ c, if Ascii.eqb c old then new else String c EmptyString) s.

(** [c in s] for a character [c]. *)
Fixpoint contains (c : ascii) (s : string) : bool :=
  match s with
  | EmptyString => false
  | String d s' => Ascii.eqb d c || contains c s'
  end.

(** Number of occurrences of [c]. *)
Fixpoint count (c : ascii) (s : string) : nat :=
  match s with
  | EmptyString => 0
  | String d s' => (if Ascii.eqb d c then 1 else 0) + count c s'
  end.

(** The ASCII letters that survive
    [unicodedata.normalize('NFKD', s).encode('ascii', 'ignore')] for the
    code points 128..255; a code point that is not listed has no ASCII
    part and disappears. *)
Definition nfkd_ascii_table : list (N * string) :=
  [ (160, " "); (168, " "); (170, "a"); (175, " "); (178, "2"); (179, "3");
    (180, " "); (184, " "); (185, "1"); (186, "o");
    (188, "14"); (189, "12"); (190, "34");
    (192, "A"); (193, "A"); (194, "A"); (195, "A"); (196, "A"); (197, "A");
    (199, "C"); (200, "E"); (201, "E"); (202, "E"); (203, "E");
    (204, "I"); (205, "I"); (206, "I"); (207, "I"); (209, "N");
    (210, "O"); (211, "O"); (212, "O"); (213, "O"); (214, "O");
    (217, "U"); (218, "U"); (219, "U"); (220, "U"); (221, "Y");
    (224, "a"); (225, "a"); (226, "a"); (227, "a"); (228, "a"); (229, "a");
    (231, "c"); (232, "e"); (233, "e"); (234, "e"); (235, "e");
    (236, "i"); (237, "i"); (238, "i"); (239, "i"); (241, "n");
    (242, "o"); (243, "o"); (244, "o"); (245, "o"); (246, "o");
    (249, "u"); (250, "u"); (251, "u"); (252, "u"); (253, "y");
    (255, "y") ]%N.

Fixpoint assoc (n : N) (t : list (N * string)) : option string :=
  match t with
  | [] => None
  | (k, v) :: t' => if (k =? n)%N then Some v else assoc n t'
  end.

Definition nfkd_ascii_char (c : ascii) : string :=
  let n := code c in
  if (n <? 128)%N then String c EmptyString
  else default EmptyString (assoc n nfkd_ascii_table).

Definition nfkd_ascii (s : string) : string := expand nfkd_ascii_char s.

(** The Latin-1 characters a-umlaut, o-umlaut, u-umlaut. *)
Definition a_uml : ascii := ascii_of_N 228.
Definition o_uml : ascii := ascii_of_N 246.
Definition u_uml : ascii := ascii_of_N 252.

End Str.

(** ** Config section *)

Definition DEFAULT_GROUPS : gset string := {[ "ipausers" ]}.

Definition GROUP_SEP : ascii := "/"%char.

(** [IPA_CMDLINE_MAP]: tracked field and the flag of the command line tool,
    in the order in which the dict lists them. *)
Definition IPA_CMDLINE_MAP : list (string * string) :=
  [ ("first_name", "first");
    ("last_name", "last");
    ("email_address", "email");
    ("telephone_number", "phone");
    ("mobile_telephone_number", "mobile") ].

(** ** Roster entries *)

(** One entry made by [read_csv_file]: a dict with the keys of [CSV_MAP].
    [G] is the type of the value under ['member_of_groups']: the raw text
    when the entry is read, a set once [fix_csv_group_names] has run. *)
Record csv_entry (G : Type) := CsvEntry {
  member_of_groups : G;
  user_login : string;
  first_name : string;
  last_name : string;
  email_address : string;
  telephone_number : string;
  mobile_telephone_number : string;
}.
Arguments CsvEntry {G}.
Arguments member_of_groups {G}.
Arguments user_login {G}.
Arguments first_name {G}.
Arguments last_name {G}.
Arguments email_address {G}.
Arguments telephone_number {G}.
Arguments mobile_telephone_number {G}.

(** [entry.get(key, '')] for a key naming a text field. *)
Definition csv_get {G} (e : csv_entry G) (key : string) : string :=
  if String.eqb key "user_login" then user_login e
  else if String.eqb key "first_name" then first_name e
  else if String.eqb key "last_name" then last_name e
  else if String.eqb key "email_address" then email_address e
  else if String.eqb key "telephone_number" then telephone_number e
  else if String.eqb key "mobile_telephone_number"
       then mobile_telephone_number e
  else "".

Definition set_groups {G H} (e : csv_entry G) (g : H) : csv_entry H :=
  CsvEntry g (user_login e) (first_name e) (last_name e) (email_address e)
           (telephone_number e) (mobile_telephone_number e).

(** ** Text normalisation of the group field *)

(** [_groupname_strip_re]: the characters outside [[^A-Za-z0-9_/-]]. *)
Definition groupname_char (c : ascii) : bool :=
  let n := Str.code c in
  ((65 <=? n) && (n <=? 90) || (97 <=? n) && (n <=? 122)
   || (48 <=? n) && (n <=? 57) || (n =? 95) || (n =? 47) || (n =? 45))%N.

Definition strip_sep (c : ascii) : bool :=
  Ascii.eqb c " "%char || Ascii.eqb c GROUP_SEP.

(** [entry['member_of_groups'].strip(' ' + GROUP_SEP)] *)
Definition original_group_name (raw : string) : string :=
  Str.strip_with strip_sep raw.

Definition replace_umlauts (s : string) : string :=
  Str.replace Str.u_uml "ue"
    (Str.replace Str.o_uml "oe" (Str.replace Str.a_uml "ae" s)).

(** The value of [group_name] when the loop body reaches the split. *)
Definition group_name (raw : string) : string :=
  Str.keep groupname_char
    (Str.nfkd_ascii
       (replace_umlauts
          (Str.lower (Str.join "_" (Str.words (original_group_name raw)))))).

Definition group_names (raw : string) : list string :=
  Str.split GROUP_SEP (group_name raw).

Definition nonempty (s : string) : bool :=
  match s with EmptyString => false | _ => true end.

(** [dict.update(pairs)] *)
Definition dict_update {V} (d : gmap string V) (pairs : list (string * V))
  : gmap string V :=
  foldl (λ m kv, <[kv.1 := kv.2]> m) d pairs.

(** The pairs handed to [group_descriptions.update] for one entry. *)
Definition description_pairs (raw : string) : list (string * string) :=
  zip (group_names raw) (Str.split GROUP_SEP (original_group_name raw)).

(** One turn of the loop of [fix_csv_group_names]. *)
Definition fix_group_names_step (group_descriptions : gmap string string)
    (entry : csv_entry string)
  : csv_entry (gset string) * gmap string string :=
  let raw := member_of_groups entry in
  (set_groups entry
     (list_to_set (filter (λ g, nonempty g = true) (group_names raw))),
   dict_update group_descriptions (description_pairs raw)).

(** [fix_csv_group_names]: the entries as the loop leaves them, and the
    returned [group_descriptions]. *)
Fixpoint fix_csv_group_names_from (group_descriptions : gmap string string)
    (entries : list (csv_entry string))
  : list (csv_entry (gset string)) * gmap string string :=
  match entries with
  | [] => ([], group_descriptions)
  | entry :: rest =>
      let '(entry', d) := fix_group_names_step group_descriptions entry in
      let '(rest', d') := fix_csv_group_names_from d rest in
      (entry' :: rest', d')
  end.

Definition fix_csv_group_names (entries : list (csv_entry string))
  : list (csv_entry (gset string)) * gmap string string :=
  fix_csv_group_names_from ∅ entries.


(** [fix_csv_emails] on one entry. *)
Definition fix_email {G} (entry : csv_entry G) : csv_entry G :=
  let email := email_address entry in
  if Str.contains ";" email
  then CsvEntry (member_of_groups entry) (user_login entry)
         (first_name entry) (last_name entry)
         (hd "" (Str.split ";" email))
         (telephone_number entry) (mobile_telephone_number entry)
  else entry.

Definition fix_csv_emails {G} (entries : list (csv_entry G))
  : list (csv_entry G) := fix_email <$> entries.

(** The test and assignment of [fix_csv_zero_entries] on one field value. *)
Definition fix_zero (v : string) : string :=
  if String.eqb (Str.strip v) "0" then "" else v.

Definition fix_zero_entry {G} (entry : csv_entry G) : csv_entry G :=
  CsvEntry (member_of_groups entry) (user_login entry)
    (first_name entry) (last_name entry)
    (fix_zero (email_address entry))
    (fix_zero (telephone_number entry))
    (fix_zero (mobile_telephone_number entry)).

Definition fix_csv_zero_entries {G} (entries : list (csv_entry G))
  : list (csv_entry G) := fix_zero_entry <$> entries.

(** ** Directory entries *)

(** An entry of the directory once [fix_ipa_groups] has seen it: the text
    fields of the parsed [ipa user-show] output, and the set under
    ['member_of_groups'] when the output has that key.  The user that the
    directory does not know is the entry with no key at all. *)
Record ipa_entry := IpaEntry {
  ipa_fields : gmap string string;
  ipa_member_of_groups : option (gset string);
}.

(** [old.get(key, '')] for a key naming a text field. *)
Definition ipa_get (old : ipa_entry) (key : string) : string :=
  default "" (ipa_fields old !! key).

(** [old.get('member_of_groups', set())] *)
Definition ipa_groups (old : ipa_entry) : gset string :=
  default ∅ (ipa_member_of_groups old).

(** Truth value of the dict [old]: it has a key. *)
Definition present (old : ipa_entry) : bool :=
  negb (bool_decide (ipa_fields old = ∅))
  || bool_decide (is_Some (ipa_member_of_groups old)).

(** [fix_ipa_groups] on one parsed entry. *)
Definition fix_ipa_group (entry : gmap string string) : ipa_entry :=
  IpaEntry (delete "member_of_groups" entry)
    ((λ v, list_to_set
             (filter (λ g, nonempty g = true) (Str.split2 "," " " v)))
       <$> entry !! "member_of_groups").

Definition fix_ipa_groups (entries : list (gmap string string))
  : list ipa_entry := fix_ipa_group <$> entries.

(** [query_ipa]: [user_show username] is the dict parsed from the output of
    [ipa user-show --all username], the empty dict when that command
    fails.  The directory is taken as it stands during one planning: equal
    usernames get equal answers.  The [ipa user-show] commands are not
    listed among the started commands, and a failure to start the tool or
    to parse its output is outside this definition. *)
Definition query_ipa (user_show : string → gmap string string)
    (usernames : list string) : list (gmap string string) :=
  user_show <$> usernames.

(** ** The difference engine *)

(** ['--{0}={1}'.format(flag, value)] *)
Definition assignment (flag value : string) : string :=
  "--" ++ flag ++ "=" ++ value.

(** ['--users={}'.format(user)] *)
Definition users_arg (user : string) : string := "--users=" ++ user.

(** The dict that [find_user_differences] returns. *)
Record differences := Differences {
  user_mod : gmap string (list string);
  user_add : gmap string (list string);
  group_add_member : gmap string (list string);
  group_remove_member : gmap string (list string);
}.

Definition no_differences : differences := Differences ∅ ∅ ∅ ∅.

(** [d[key].append(x)] on a [defaultdict(list)]. *)
Definition dict_append (key x : string) (d : gmap string (list string))
  : gmap string (list string) :=
  <[key := (default [] (d !! key) ++ [x])%list]> d.

(** The list [user_changes] of the loop body. *)
Definition changed_attributes (new : csv_entry (gset string))
    (old : ipa_entry) : list string :=
  (λ kc, assignment kc.2 (Str.strip (csv_get new kc.1)))
    <$> filter (λ kc, Str.strip (csv_get new kc.1)
                       ≠ Str.strip (ipa_get old kc.1)) IPA_CMDLINE_MAP.

Definition all_attributes (new : csv_entry (gset string)) : list string :=
  (λ kc, assignment kc.2 (Str.strip (csv_get new kc.1))) <$> IPA_CMDLINE_MAP.

(** The body of the loop of [find_user_differences]. *)
Definition user_step (changes : differences)
    (pair : csv_entry (gset string) * ipa_entry) : differences :=
  let new := pair.1 in
  let old := pair.2 in
  let user := user_login new in
  let changes1 :=
    if present old then
      let user_changes := changed_attributes new old in
      match user_changes with
      | [] => changes
      | _ => Differences (<[user := user_changes]> (user_mod changes))
               (user_add changes) (group_add_member changes)
               (group_remove_member changes)
      end
    else
      Differences (user_mod changes)
        (<[user := all_attributes new]> (user_add changes))
        (group_add_member changes) (group_remove_member changes) in
  let old_groups := ipa_groups old ∪ DEFAULT_GROUPS in
  let new_groups := member_of_groups new ∪ DEFAULT_GROUPS in
  let changes2 :=
    Differences (user_mod changes1) (user_add changes1)
      (foldl (λ d group, dict_append group (users_arg user) d)
         (group_add_member changes1) (elements (new_groups ∖ old_groups)))
      (group_remove_member changes1) in
  Differences (user_mod changes2) (user_add changes2)
    (group_add_member changes2)
    (foldl (λ d group, dict_append group (users_arg user) d)
       (group_remove_member changes2) (elements (old_groups ∖ new_groups))).

Definition find_user_differences (csv_entries : list (csv_entry (gset string)))
    (ipa_entries : list ipa_entry) : differences :=
  foldl user_step no_differences (zip csv_entries ipa_entries).

(** ** Calls of the command line tool *)

(** What [subprocess.call(argv)] does: the program runs and exits with a
    status, or it cannot be started and the call raises [OSError]. *)
Inductive outcome := Exit (status : Z) | OSError.

(** A computation that calls the tool: its value, [None] when an exception
    left it, and the commands it started, in order. *)
Record proc (A : Type) := Proc {
  value : option A;
  started : list (list string);
}.
Arguments Proc {A}.
Arguments value {A}.
Arguments started {A}.

#[global] Instance proc_ret : MRet proc := λ A a, Proc (Some a) [].

#[global] Instance proc_bind : MBind proc := λ A B f m,
  match value m with
  | None => Proc None (started m)
  | Some a => Proc (value (f a)) (started m ++ started (f a))%list
  end.

(** [for x in l: acc = body(acc, x)] *)
Fixpoint for_each {A S} (body : S → A → proc S) (acc : S) (l : list A)
  : proc S :=
  match l with
  | [] => mret acc
  | x :: l' => acc' ← body acc x; for_each body acc' l'
  end.

Inductive command :=
  UserAdd | UserMod | GroupAdd | GroupAddMember | GroupRemoveMember.

Definition command_name (c : command) : string :=
  match c with
  | UserAdd => "user-add"
  | UserMod => "user-mod"
  | GroupAdd => "group-add"
  | GroupAddMember => "group-add-member"
  | GroupRemoveMember => "group-remove-member"
  end.

(** The dict [changes] of [main], with its five keys. *)
Record changes := Changes {
  changes_user_mod : gmap string (list string);
  changes_user_add : gmap string (list string);
  changes_group_add_member : gmap string (list string);
  changes_group_remove_member : gmap string (list string);
  changes_group_add : gmap string (list string);
}.

(** [changes[command]] *)
Definition changes_get (ch : changes) (c : command)
  : gmap string (list string) :=
  match c with
  | UserAdd => changes_user_add ch
  | UserMod => changes_user_mod ch
  | GroupAdd => changes_group_add ch
  | GroupAddMember => changes_group_add_member ch
  | GroupRemoveMember => changes_group_remove_member ch
  end.

(** [not any(changes.values())] *)
Definition no_changes (ch : changes) : bool :=
  bool_decide (changes_user_mod ch = ∅) && bool_decide (changes_user_add ch = ∅)
  && bool_decide (changes_group_add_member ch = ∅)
  && bool_decide (changes_group_remove_member ch = ∅)
  && bool_decide (changes_group_add ch = ∅).

(** The command line that [commit_changes] builds for one item. *)
Definition command_line (c : command) (item : string * list string)
  : list string :=
  (["ipa"; "--no-prompt"; command_name c; item.1] ++ item.2)%list.

(** The command line of the existence check of [find_group_changes]. *)
Definition group_show (group : string) : list string :=
  ["ipa"; "group-show"; group].

Section Tool.

(** The behaviour of the tool behind [subprocess.call]. *)
Variable run : list string → outcome.

Definition subprocess_call (argv : list string) : proc Z :=
  match run argv with
  | Exit status => Proc (Some status) [argv]
  | OSError => Proc None []
  end.

(** The argument of ['--desc={}'] for a group, as [find_group_changes]
    chooses it. *)
Definition description_args (group_descriptions : gmap string string)
    (group : string) : list string :=
  match group_descriptions !! group with
  | Some d => ["--desc=" ++ d]
  | None => []
  end.

(** The body of the loop of [find_group_changes]. *)
Definition check_group (group_descriptions : gmap string string)
    (changes : gmap string (list string)) (group : string)
  : proc (gmap string (list string)) :=
  status ← subprocess_call (group_show group);
  if bool_decide (status ≠ 0%Z)
  then mret (<[group := description_args group_descriptions group]> changes)
  else mret changes.

(** [find_group_changes], with the keys visited in the order of
    [elements]; [find_group_changes_in] is the loop for any order. *)
Definition find_group_changes (user_changes : differences)
    (group_descriptions : gmap string string)
  : proc (gmap string (list string)) :=
  for_each (check_group group_descriptions) ∅
           (elements (dom (group_add_member user_changes))).

(** The body of the inner loop of [commit_changes]. *)
Definition commit_item (c : command) (_ : ()) (item : string * list string)
  : proc () :=
  _ ← subprocess_call (command_line c item); mret ().

(** [commit_changes], with the items of a category visited in the order
    of [map_to_list]; [commit_changes_in] is the loop for any order. *)
Definition commit_changes (ch : changes) : proc () :=
  for_each
    (λ _ command,
       for_each (commit_item command) ()
                (map_to_list (changes_get ch command)))
    () [UserAdd; UserMod; GroupAdd; GroupAddMember; GroupRemoveMember].

(** The directory behind [ipa user-show]. *)
Variable user_show : string → gmap string string.

(** The entries of [main] when [find_user_differences] is called. *)
Definition csv_entries_of (rows : list (csv_entry string))
  : list (csv_entry (gset string)) :=
  fix_csv_zero_entries (fix_csv_emails (fix_csv_group_names rows).1).

Definition ipa_entries_of (csv_entries : list (csv_entry (gset string)))
  : list ipa_entry :=
  fix_ipa_groups (query_ipa user_show (user_login <$> csv_entries)).

(** [main] up to the test [any(changes.values())]: the dict [changes]. *)
Definition main_changes (rows : list (csv_entry string)) : proc changes :=
  let group_descriptions := (fix_csv_group_names rows).2 in
  let csv_entries := csv_entries_of rows in
  let ipa_entries := ipa_entries_of csv_entries in
  let d := find_user_differences csv_entries ipa_entries in
  group_add ← find_group_changes d group_descriptions;
  mret (Changes (user_mod d) (user_add d) (group_add_member d)
         (group_remove_member d) group_add).

End Tool.


(** ** Occurrences of a group id in a batch (used to state the catalogue
    properties) *)

(** The pairs (id, original segment) that the rows hand to
    [group_descriptions.update], in batch order. *)
Definition group_occurrences (rows : list (csv_entry string))
  : list (string * string) :=
  mjoin ((λ row, description_pairs (member_of_groups row)) <$> rows).

Definition occurrences_of (id : string) (rows : list (csv_entry string))
  : list (string * string) :=
  filter (λ kv, kv.1 = id) (group_occurrences rows).

(** ** Batches used as examples *)

(** Two rows whose group labels both normalise to [team]. *)
Definition two_labels_batch : list (csv_entry string) :=
  [ CsvEntry "Team" "ann" "Ann" "Lee" "" "" "";
    CsvEntry "TEAM" "bob" "Bob" "Ray" "" "" "" ].

(** A row whose first group label is all punctuation. *)
Definition punctuation_batch : list (csv_entry string) :=
  [ CsvEntry "!!!/Team" "ann" "Ann" "Lee" "" "" "" ].

(** The deltas of the group memberships of one pair, as sets. *)
Definition groups_to_add (new : csv_entry (gset string)) (old : ipa_entry)
  : gset string :=
  (member_of_groups new ∪ DEFAULT_GROUPS) ∖ (ipa_groups old ∪ DEFAULT_GROUPS).

Definition groups_to_remove (new : csv_entry (gset string)) (old : ipa_entry)
  : gset string :=
  (ipa_groups old ∪ DEFAULT_GROUPS) ∖ (member_of_groups new ∪ DEFAULT_GROUPS).

(** The [--users=] arguments of the pairs that [sel] selects for [group],
    in batch order. *)
Definition members_of (sel : csv_entry (gset string) → ipa_entry → gset string)
    (group : string) (pairs : list (csv_entry (gset string) * ipa_entry))
  : list string :=
  (λ p, users_arg (user_login p.1)) <$> filter (λ p, group ∈ sel p.1 p.2) pairs.

(** A dict entry for a list of arguments: none when the list is empty. *)
Definition entry_of (l : list string) : option (list string) :=
  match l with
  | [] => None
  | _ => Some l
  end.

(** A [defaultdict(list)] value after the arguments [l] were appended. *)
Definition extend (o : option (list string)) (l : list string)
  : option (list string) :=
  match l with
  | [] => o
  | _ => Some (default [] o ++ l)%list
  end.

(** The pairs of an import sequence and a directory sequence, taken index
    by index: position [i] gives a pair when both sequences have an
    element there. *)
Definition pairs_by_position {A B} (l : list A) (k : list B) : list (A * B) :=
  omap (λ i, x ← l !! i; y ← k !! i; Some (x, y)) (seq 0 (length l)).

(** A batch and a directory answer whose group sets agree outside the
    default groups. *)
Definition staff_new : csv_entry (gset string) :=
  CsvEntry {[ "staff" ]} "ann" "Ann" "Lee" "" "" "".

(** The same user with another first name in the roster. *)
Definition renamed_new : csv_entry (gset string) :=
  CsvEntry {[ "staff" ]} "ann" "Anne" "Lee" "" "" "".

Definition staff_old : ipa_entry :=
  IpaEntry {[ "first_name" := "Ann"; "last_name" := "Lee" ]}
           (Some {[ "staff"; "ipausers" ]}).

(** ** Reading a started command back *)

Definition command_of_name (name : string) : option command :=
  if String.eqb name "user-add" then Some UserAdd
  else if String.eqb name "user-mod" then Some UserMod
  else if String.eqb name "group-add" then Some GroupAdd
  else if String.eqb name "group-add-member" then Some GroupAddMember
  else if String.eqb name "group-remove-member" then Some GroupRemoveMember
  else None.

(** The category of a command line [ipa --no-prompt <command> ...]. *)
Definition issued_command (argv : list string) : option command :=
  argv !! 2 ≫= command_of_name.

(** Position of a category in the order that the specification fixes:
    user-add, user-mod, group-add, group-add-member, group-remove-member. *)
Definition rank (c : command) : nat :=
  match c with
  | UserAdd => 0
  | UserMod => 1
  | GroupAdd => 2
  | GroupAddMember => 3
  | GroupRemoveMember => 4
  end.

Definition rank_of (argv : list string) : nat :=
  default 0 (rank <$> issued_command argv).

(** No command of a later category stands before one of an earlier
    category. *)
Definition in_order (t : list (list string)) : Prop :=
  ∀ (i j : nat) a b, t !! i = Some a → t !! j = Some b →
    (rank_of a < rank_of b)%nat → (i < j)%nat.

(** A plan with one entry in the first and in the last category. *)
Definition small_plan : changes :=
  Changes ∅ {[ "ann" := ["--first=Ann"] ]} ∅
          {[ "staff" := ["--users=bob"] ]} ∅.

(** ** What a call of [ipa group-show] tells *)

(** The answer of the directory to an existence check, after the manual
    page of the tool (exit status 0: the entry was shown, 2: the entry was
    not found, anything else: the command failed, for instance because the
    server cannot be reached). *)
Inductive answer := GroupExists | GroupMissing | CheckFailed.

Definition group_show_answer (o : outcome) : answer :=
  match o with
  | Exit 0 => GroupExists
  | Exit 2 => GroupMissing
  | _ => CheckFailed
  end.

(** A tool whose every command fails with exit status 1, and differences
    that add a user to one group. *)
Definition failing_tool : list string → outcome := λ _, Exit 1.

(** A tool that cannot be started. *)
Definition absent_tool : list string → outcome := λ _, OSError.

Definition one_group_differences : differences :=
  Differences ∅ ∅ {[ "staff" := [users_arg "ann"] ]} ∅.

(** ** The directory after a plan was applied *)

(** The directory entry [old] carries what the import entry [new] asks
    for: the user is known, every tracked field holds the stripped import
    value (a field without value may be missing), and the groups of the
    user are the imported ones, the default groups left aside. *)
Definition reflects (new : csv_entry (gset string)) (old : ipa_entry) : Prop :=
  present old = true ∧
  (∀ key flag, (key, flag) ∈ IPA_CMDLINE_MAP →
     ipa_get old key = Str.strip (csv_get new key)) ∧
  ipa_groups old ∖ DEFAULT_GROUPS = member_of_groups new ∖ DEFAULT_GROUPS.

(** A tool that finds no group, a directory that knows nobody, and the
    plan of [punctuation_batch] against them. *)
Definition no_group_tool : list string → outcome := λ _, Exit 2.

Definition empty_directory : string → gmap string string := λ _, ∅.

Definition punctuation_plan : changes :=
  Changes ∅
    {[ "ann" := ["--first=Ann"; "--last=Lee"; "--email="; "--phone=";
                 "--mobile="] ]}
    {[ "team" := ["--users=ann"] ]} ∅
    {[ "team" := ["--desc=Team"] ]}.

(** A row, and a directory that already holds what the row asks for. *)
Definition settled_batch : list (csv_entry string) :=
  [ CsvEntry "Staff" "ann" " Ann " "Lee" "0" "" "" ].

Definition settled_directory : string → gmap string string := λ _,
  {[ "user_login" := "ann"; "first_name" := "Ann"; "last_name" := "Lee";
     "member_of_groups" := "staff, ipausers" ]}.

(** ** The scenario of the specification *)

(** The label [Büro], with the Latin-1 u-umlaut. *)
Definition buero_label : string := String "B" (String Str.u_uml "ro").

(** The row [login=jdoe, first=Jane, last=Doe, email=0, groups=Büro/Team];
    the scenario leaves the two phone fields open. *)
Definition jdoe_row (phone mobile : string) : csv_entry string :=
  CsvEntry (buero_label ++ "/Team") "jdoe" "Jane" "Doe" "0" phone mobile.

(** ** Notions for the further properties *)

(** The characters of a canonical group id: lowercase ASCII letters,
    digits, underscore and hyphen. *)
Definition id_char (c : ascii) : bool :=
  let n := Str.code c in
  ((97 <=? n) && (n <=? 122) || (48 <=? n) && (n <=? 57)
   || (n =? 95) || (n =? 45))%N.

(** Every character of [s] satisfies [p]. *)
Fixpoint all_chars (p : ascii → bool) (s : string) : bool :=
  match s with
  | EmptyString => true
  | String c s' => p c && all_chars p s'
  end.

(** [c.lower() == c] *)
Definition is_lowered (c : ascii) : bool := Ascii.eqb (Str.lower_char c) c.

(** The two characters [a b] stand next to each other somewhere in [s]. *)
Fixpoint has_pair (a b : ascii) (s : string) : bool :=
  match s with
  | EmptyString => false
  | String c s' =>
      match s' with
      | String d _ => Ascii.eqb c a && Ascii.eqb d b
      | EmptyString => false
      end || has_pair a b s'
  end.

(** The commands of [l] up to the first one that cannot be started. *)
Fixpoint before_raise (run : list string → outcome) (l : list (list string))
  : list (list string) :=
  match l with
  | [] => []
  | argv :: l' =>
      match run argv with
      | Exit _ => argv :: before_raise run l'
      | OSError => []
      end
  end.

(** ** Reading the roster *)

(** [CSV_MAP]: the column of every field. *)
Definition CSV_MAP : gmap string nat :=
  {[ "member_of_groups" := 12; "user_login" := 5; "first_name" := 6;
     "last_name" := 7; "email_address" := 8; "telephone_number" := 9;
     "mobile_telephone_number" := 10 ]}.

(** [line[CSV_MAP[key]]]: [None] stands for the [IndexError] of a line
    that is too short. *)
Definition cell (line : list string) (key : string) : option string :=
  column ← CSV_MAP !! key; line !! column.

(** The entry that the loop of [read_csv_file] builds from one line. *)
Definition read_entry (line : list string) : option (csv_entry string) :=
  groups ← cell line "member_of_groups";
  login ← cell line "user_login";
  first ← cell line "first_name";
  last ← cell line "last_name";
  email ← cell line "email_address";
  phone ← cell line "telephone_number";
  mobile ← cell line "mobile_telephone_number";
  Some (CsvEntry groups login first last email phone mobile).

(** [list(read_csv_file(filename))], from the lines that the csv reader
    yields for the file: the first line is skipped as header, every other
    line gives an entry; [None] when an exception leaves the generator
    (the [IndexError] of a short line, or the failure of [next] on a file
    without any line, which Python 3.7 and later turn into a
    [RuntimeError]). *)
Definition read_csv_file (lines : list (list string))
  : option (list (csv_entry string)) :=
  match lines with
  | [] => None
  | _ :: lines' => mapM read_entry lines'
  end.

(** ** Reading the answer of the directory *)

Definition newline : ascii := ascii_of_N 10.

(** [s.split(sep, 1)] for a one-character separator. *)
Fixpoint split_once (sep : ascii) (s : string) : list string :=
  match s with
  | EmptyString => [EmptyString]
  | String c s' =>
      if Ascii.eqb c sep then [EmptyString; s']
      else Str.cons_head c (split_once sep s')
  end.

(** The key and the value that the loop of [parse_freeipa_output] takes
    from one line; [None] stands for the [ValueError] of the assignment
    [key, val = ...] when the line has no colon. *)
Definition parse_line (line : string) : option (string * string) :=
  match split_once ":" line with
  | [key; val] =>
      Some (Str.replace " " "_" (Str.lower (Str.strip key)), Str.strip val)
  | _ => None
  end.

Fixpoint parse_lines (entry : gmap string string) (lines : list string)
  : option (gmap string string) :=
  match lines with
  | [] => Some entry
  | line :: lines' =>
      kv ← parse_line line; parse_lines (<[kv.1 := kv.2]> entry) lines'
  end.

(** [parse_freeipa_output], from the text that [str(output, encoding)]
    decodes. *)
Definition parse_freeipa_output (output : string)
  : option (gmap string string) :=
  parse_lines ∅ (Str.split newline (Str.strip output)).

(** ** The end of [main] *)

(** How [main] ends: [exit(status)] ([exit()] gives status 0), or
    [EOFError] when [input] finds no further answer. *)
Inductive ending := SystemExit (status : Z) | EOFError.

(** The loop [while True] of [main]; [answers] are the lines that [input]
    will read. *)
Fixpoint confirm (run : list string → outcome) (ch : changes)
    (answers : list string) : proc ending :=
  match answers with
  | [] => mret EOFError
  | answer :: answers' =>
      if String.eqb (Str.lower answer) "n" then mret (SystemExit 2)
      else if String.eqb (Str.lower answer) "y"
      then _ ← commit_changes run ch; mret (SystemExit 0)
      else if String.eqb (Str.lower answer) "d"
      then confirm run ch answers'
      else confirm run ch answers'
  end.

Definition main (run : list string → outcome)
    (user_show : string → gmap string string)
    (rows : list (csv_entry string)) (answers : list string) : proc ending :=
  ch ← main_changes run user_show rows;
  if no_changes ch then mret (SystemExit 0) else confirm run ch answers.

(** A line with thirteen cells. *)
Definition thirteen_cells : list string :=
  ["a"; "b"; "c"; "d"; "e"; "ann"; "Ann"; "Lee"; "ann@x.org"; "1"; "2";
   "k"; "Staff"].

(** ** Loops over a dict in a given order *)

(** A loop over a dict visits every key once, in the order in which the
    keys were inserted; the contents of the dict do not fix that order.
    The definitions named after the source take the order of [elements]
    and [map_to_list].  The variants below take the order of the visit as
    an argument; what depends on the order is stated on them, for every
    order that lists each item once. *)

(** [find_group_changes] when the loop over [group-add-member] visits the
    keys in the order [groups]. *)
Definition find_group_changes_in (run : list string → outcome)
    (groups : list string) (group_descriptions : gmap string string)
  : proc (gmap string (list string)) :=
  for_each (check_group run group_descriptions) ∅ groups.

(** [commit_changes] when the loop over [changes[command]] visits the
    items in the order [items command]. *)
Definition commit_changes_in (run : list string → outcome)
    (items : command → list (string * list string)) : proc () :=
  for_each
    (λ _ command, for_each (commit_item run command) () (items command))
    () [UserAdd; UserMod; GroupAdd; GroupAddMember; GroupRemoveMember].

(** The command lines of a plan, category after category, each category
    in the order [items]. *)
Definition command_lines_in (items : command → list (string * list string))
  : list (list string) :=
  mjoin ((λ c, command_line c <$> items c)
           <$> [UserAdd; UserMod; GroupAdd; GroupAddMember;
                GroupRemoveMember]).

(** A plan that adds a member to the group [team] and then to the group
    [buero], and the items of its categories in the order of insertion. *)
Definition two_groups_plan : changes :=
  Changes ∅ ∅ {[ "team" := ["--users=u1"]; "buero" := ["--users=u2"] ]} ∅ ∅.

Definition two_groups_items (c : command) : list (string * list string) :=
  match c with
  | GroupAddMember => [("team", ["--users=u1"]); ("buero", ["--users=u2"])]
  | _ => []
  end.

(** A tool that cannot start the command lines that name [team]. *)
Definition no_team_tool (argv : list string) : outcome :=
  if bool_decide ("team" ∈ argv) then OSError else Exit 0.

(** Two rows with one login: the directory does not know the user when it
    is asked for the first row and knows the user when it is asked for the
    second. *)
Definition twice_ann : list (csv_entry (gset string)) :=
  [staff_new; renamed_new].

Definition unknown_then_known : list ipa_entry :=
  [IpaEntry ∅ None; staff_old].

(** A batch of two users with different logins. *)
Definition bob_new : csv_entry (gset string) :=
  CsvEntry {[ "staff" ]} "bob" "Bob" "Ray" "" "" "".

Definition ann_and_bob : list (csv_entry (gset string)) :=
  [staff_new; bob_new].

(** Differences that add a member to [team] and then to [buero]. *)
Definition two_groups_differences : differences :=
  Differences ∅ ∅ (changes_group_add_member two_groups_plan) ∅.

(** * Properties *)

(** ** Facts on the string methods *)

Module StrFacts.
Import Str.

Lemma rstrip_idemp p s : rstrip p (rstrip p s) = rstrip p s.
Proof.
  induction s as [|c s IH]; [done|].
  simpl. destruct (rstrip p s) as [|d r] eqn:E.
  - destruct (p c) eqn:Hc; [done|]. simpl. by rewrite Hc.
  - simpl. simpl in IH. by rewrite IH.
Qed.

Lemma lstrip_head p s :
  lstrip p s = EmptyString ∨
  ∃ c r, lstrip p s = String c r ∧ p c = false.
Proof.
  induction s as [|c s IH]; [by left|].
  simpl. destruct (p c) eqn:Hc; [done|]. right. eauto.
Qed.

Lemma rstrip_head p c r :
  p c = false → ∃ r', rstrip p (String c r) = String c r'.
Proof.
  intros Hc. simpl. destruct (rstrip p r); [|eauto].
  rewrite Hc. eauto.
Qed.

Lemma strip_with_idemp p s :
  strip_with p (strip_with p s) = strip_with p s.
Proof.
  unfold strip_with.
  destruct (lstrip_head p s) as [E|(c & r & E & Hc)]; rewrite E.
  - done.
  - destruct (rstrip_head p c r Hc) as [r' E'].
    assert (lstrip p (rstrip p (String c r)) = rstrip p (String c r)) as ->.
    { rewrite E'. simpl. by rewrite Hc. }
    apply rstrip_idemp.
Qed.

Lemma strip_idemp s : strip (strip s) = strip s.
Proof. apply strip_with_idemp. Qed.

(** *** Separators are neither made nor lost *)

Lemma count_app c s1 s2 : count c (s1 ++ s2) = count c s1 + count c s2.
Proof. induction s1 as [|d s1 IH]; [done|]. simpl. rewrite IH. lia. Qed.

Lemma length_split sep s : length (split sep s) = S (count sep s).
Proof.
  induction s as [|c s IH]; [done|]. simpl.
  destruct (Ascii.eqb c sep); simpl; [by rewrite IH|].
  rewrite <-IH. by destruct (split sep s).
Qed.

Lemma count_expand c f s :
  (∀ d, count c (f d) = if Ascii.eqb d c then 1 else 0) →
  count c (expand f s) = count c s.
Proof.
  intros H. induction s as [|d s IH]; [done|].
  simpl. by rewrite count_app, H, IH.
Qed.

Lemma count_keep c p s : p c = true → count c (keep p s) = count c s.
Proof.
  intros Hc. induction s as [|d s IH]; [done|]. simpl.
  destruct (p d) eqn:Hd; simpl; [by rewrite IH|].
  destruct (Ascii.eqb_spec d c) as [->|_]; [congruence|done].
Qed.

Lemma words_starts_word s : starts_word s = true → words s ≠ [].
Proof.
  destruct s as [|c s]; [done|]. simpl. intros Hc.
  apply negb_true_iff in Hc. rewrite Hc.
  destruct (starts_word s); [by destruct (words s)|done].
Qed.

Lemma join_cons_head sep c l :
  l ≠ [] → join sep (cons_head c l) = String c (join sep l).
Proof. destruct l as [|w [|w' l]]; done. Qed.

Lemma count_join_words c s :
  is_space c = false → c ≠ "_"%char →
  count c (join "_" (words s)) = count c s.
Proof.
  intros Hsp Hu. induction s as [|d s IH]; [done|]. simpl.
  destruct (is_space d) eqn:Hd.
  - destruct (Ascii.eqb_spec d c) as [->|_]; [congruence|done].
  - destruct (starts_word s) eqn:Hs.
    + rewrite join_cons_head by by apply words_starts_word.
      simpl. by rewrite IH.
    + destruct (words s) as [|w ws] eqn:Hw.
      * simpl in *. rewrite <-IH. lia.
      * change (join "_" (String d EmptyString :: w :: ws))
          with (String d (String "_" (join "_" (w :: ws)))).
        rewrite <-IH. cbn [count].
        destruct (Ascii.eqb_spec "_"%char c) as [E|_]; [by subst|done].
Qed.

(** Statements on all 256 characters, by inspection of each. *)
Ltac each_char d :=
  destruct d as [[] [] [] [] [] [] [] []]; vm_compute; reflexivity.

Lemma lower_char_sep d :
  count "/" (String (lower_char d) EmptyString)
    = if Ascii.eqb d "/" then 1 else 0.
Proof. each_char d. Qed.

Lemma replace_a_uml_sep d :
  count "/" (if Ascii.eqb d a_uml then "ae" else String d EmptyString)
    = if Ascii.eqb d "/" then 1 else 0.
Proof. each_char d. Qed.

Lemma replace_o_uml_sep d :
  count "/" (if Ascii.eqb d o_uml then "oe" else String d EmptyString)
    = if Ascii.eqb d "/" then 1 else 0.
Proof. each_char d. Qed.

Lemma replace_u_uml_sep d :
  count "/" (if Ascii.eqb d u_uml then "ue" else String d EmptyString)
    = if Ascii.eqb d "/" then 1 else 0.
Proof. each_char d. Qed.

Lemma nfkd_ascii_char_sep d :
  count "/" (nfkd_ascii_char d) = if Ascii.eqb d "/" then 1 else 0.
Proof. each_char d. Qed.

End StrFacts.

(** ** The catalogue of group descriptions *)

Lemma dict_update_app {V} (d : gmap string V) l1 l2 :
  dict_update d (l1 ++ l2) = dict_update (dict_update d l1) l2.
Proof. apply foldl_app. Qed.

Lemma dict_update_lookup {V} (d : gmap string V) pairs k :
  dict_update d pairs !! k =
    match last (filter (λ kv, kv.1 = k) pairs) with
    | Some kv => Some kv.2
    | None => d !! k
    end.
Proof.
  induction pairs as [|[k' v] pairs IH] using rev_ind; [done|].
  rewrite dict_update_app, filter_app. simpl.
  rewrite filter_cons, filter_nil. simpl.
  destruct (decide (k' = k)) as [->|Hne].
  - rewrite last_snoc. simpl. apply lookup_insert_eq.
  - rewrite app_nil_r. rewrite lookup_insert_ne by done. apply IH.
Qed.

Lemma fix_csv_group_names_from_descriptions d rows :
  (fix_csv_group_names_from d rows).2 =
    dict_update d
      (mjoin ((λ row, description_pairs (member_of_groups row)) <$> rows)).
Proof.
  revert d. induction rows as [|row rows IH]; intros d; [done|].
  simpl. specialize (IH (dict_update d (description_pairs (member_of_groups row)))).
  destruct (fix_csv_group_names_from _ rows) as [rest' d'] eqn:E.
  simpl in *. rewrite IH. by rewrite dict_update_app.
Qed.

Lemma fix_csv_group_names_from_entries d rows :
  (fix_csv_group_names_from d rows).1 =
    (λ row, set_groups row
       (list_to_set (filter (λ g, nonempty g = true)
                       (group_names (member_of_groups row)))
        : gset string)) <$> rows.
Proof.
  revert d. induction rows as [|row rows IH]; intros d; [done|].
  simpl. specialize (IH (dict_update d (description_pairs (member_of_groups row)))).
  destruct (fix_csv_group_names_from _ rows) as [rest' d'] eqn:E.
  simpl in *. by rewrite IH.
Qed.

(** C4 (as amended): the catalogue maps a canonical id to the original
    segment of its last occurrence in batch order; an id that occurs
    nowhere has no entry.  Every later occurrence of an id overwrites the
    label stored by the earlier ones. *)
Theorem group_descriptions_last_wins (rows : list (csv_entry string))
    (id : string) :
  (fix_csv_group_names rows).2 !! id = snd <$> last (occurrences_of id rows).
Proof.
  unfold fix_csv_group_names, occurrences_of, group_occurrences.
  rewrite fix_csv_group_names_from_descriptions, dict_update_lookup.
  destruct (last _); [done|]. apply lookup_empty.
Qed.

(** C4 (as the specification words it, refuted): in [two_labels_batch] the
    id [team] occurs first with the label [Team] and then with the label
    [TEAM]; the catalogue keeps [TEAM], not the label of the first
    occurrence. *)
Lemma first_label_is_overwritten :
  snd <$> head (occurrences_of "team" two_labels_batch) = Some "Team" ∧
  (fix_csv_group_names two_labels_batch).2 !! "team" = Some "TEAM" ∧
  (fix_csv_group_names two_labels_batch).2 !! "team"
    ≠ snd <$> head (occurrences_of "team" two_labels_batch).
Proof. vm_compute. repeat split; [done..|discriminate]. Qed.

(** *** The keys of the catalogue *)

Lemma group_name_separators raw :
  Str.count "/" (group_name raw) = Str.count "/" (original_group_name raw).
Proof.
  unfold group_name, Str.nfkd_ascii, replace_umlauts, Str.replace, Str.lower.
  rewrite StrFacts.count_keep by done.
  rewrite (StrFacts.count_expand _ _ _ StrFacts.nfkd_ascii_char_sep).
  rewrite (StrFacts.count_expand _ _ _ StrFacts.replace_u_uml_sep).
  rewrite (StrFacts.count_expand _ _ _ StrFacts.replace_o_uml_sep).
  rewrite (StrFacts.count_expand _ _ _ StrFacts.replace_a_uml_sep).
  rewrite (StrFacts.count_expand _ _ _ StrFacts.lower_char_sep).
  by apply StrFacts.count_join_words.
Qed.

(** Every normalised segment of a row has its original segment. *)
Lemma description_pairs_keys raw :
  (description_pairs raw).*1 = group_names raw.
Proof.
  unfold description_pairs, group_names. apply fst_zip.
  by rewrite !StrFacts.length_split, group_name_separators.
Qed.

Lemma dom_dict_update {V} (d : gmap string V) pairs :
  dom (dict_update d pairs) = dom d ∪ list_to_set pairs.*1.
Proof.
  revert d. induction pairs as [|[k v] pairs IH]; intros d; simpl.
  - set_solver.
  - unfold dict_update in *. simpl. rewrite IH, dom_insert_L. set_solver.
Qed.

(** The keys of the catalogue are the segments of [group_names] of the
    rows, the empty ones included. *)
Lemma catalogue_keys (rows : list (csv_entry string)) (id : string) :
  id ∈ dom (fix_csv_group_names rows).2 ↔
  ∃ row, row ∈ rows ∧ id ∈ group_names (member_of_groups row).
Proof.
  unfold fix_csv_group_names.
  rewrite fix_csv_group_names_from_descriptions, dom_dict_update, dom_empty_L.
  rewrite elem_of_union, elem_of_list_to_set, list_elem_of_fmap.
  split.
  - intros [[]%elem_of_empty|([k v] & -> & Hin)].
    apply list_elem_of_join in Hin as (l & Hkv & Hl).
    apply list_elem_of_fmap in Hl as (row & -> & Hrow).
    exists row. split; [done|]. rewrite <-description_pairs_keys.
    apply list_elem_of_fmap. by exists (k, v).
  - intros (row & Hrow & Hid). right.
    rewrite <-description_pairs_keys in Hid.
    apply list_elem_of_fmap in Hid as (kv & -> & Hkv).
    exists kv. split; [done|]. apply list_elem_of_join.
    exists (description_pairs (member_of_groups row)). split; [done|].
    apply list_elem_of_fmap. by exists row.
Qed.

(** Apart from the empty string, the keys of the catalogue are the ids in
    the sets of the entries. *)
Lemma catalogue_keys_nonempty (rows : list (csv_entry string)) (id : string) :
  id ≠ "" →
  id ∈ dom (fix_csv_group_names rows).2 ↔
  ∃ entry, entry ∈ (fix_csv_group_names rows).1 ∧ id ∈ member_of_groups entry.
Proof.
  intros Hne. rewrite catalogue_keys. unfold fix_csv_group_names.
  rewrite fix_csv_group_names_from_entries.
  assert (nonempty id = true) as Hid by by destruct id.
  split.
  - intros (row & Hrow & Hin). eexists. split.
    + apply list_elem_of_fmap. by exists row.
    + simpl. apply elem_of_list_to_set, list_elem_of_filter. done.
  - intros (entry & (row & -> & Hrow)%list_elem_of_fmap & Hin).
    exists row. split; [done|]. simpl in Hin.
    by apply elem_of_list_to_set, list_elem_of_filter in Hin as [_ ?].
Qed.

(** C5 (the code against the claim): the segment [!!!] of
    [punctuation_batch] normalises to the empty string; the set of the row
    leaves it out, but the catalogue gets an entry under the empty key, so
    its keys are not the ids of the rows. *)
Lemma empty_segment_reaches_catalogue :
  group_names "!!!/Team" = [""; "team"] ∧
  elements <$> (member_of_groups <$> (fix_csv_group_names punctuation_batch).1)
    = [["team"]] ∧
  (fix_csv_group_names punctuation_batch).2 !! "" = Some "!!!" ∧
  elements (dom (fix_csv_group_names punctuation_batch).2) = ["team"; ""].
Proof. vm_compute. done. Qed.

(** ** The difference engine: one turn of the loop *)

Lemma foldl_dict_append (groups : list string) a d g :
  NoDup groups →
  foldl (λ d group, dict_append group a d) d groups !! g =
    if decide (g ∈ groups) then Some (default [] (d !! g) ++ [a])%list
    else d !! g.
Proof.
  revert d. induction groups as [|x groups IH]; intros d Hnd.
  { simpl. destruct (decide (g ∈ [])) as [H|H]; [|done].
    by apply elem_of_nil in H. }
  apply NoDup_cons in Hnd as [Hx Hnd]. simpl. rewrite IH by done.
  unfold dict_append at 1 2.
  destruct (decide (g = x)) as [->|Hne].
  - rewrite decide_False by done. rewrite decide_True by left.
    apply lookup_insert_eq.
  - rewrite !lookup_insert_ne by done.
    destruct (decide (g ∈ groups)) as [Hin|Hin].
    + rewrite decide_True by (by right). done.
    + rewrite decide_False; [done|]. intros [?|?]%elem_of_cons; done.
Qed.

Lemma foldl_dict_append_elements (X : gset string) a d g :
  foldl (λ d group, dict_append group a d) d (elements X) !! g =
    if decide (g ∈ X) then Some (default [] (d !! g) ++ [a])%list
    else d !! g.
Proof.
  rewrite foldl_dict_append by apply NoDup_elements.
  destruct (decide (g ∈ X)) as [Hin|Hin].
  - rewrite decide_True; [done|]. by apply elem_of_elements.
  - rewrite decide_False; [done|]. by rewrite elem_of_elements.
Qed.

Lemma user_step_user_mod ch new old :
  user_mod (user_step ch (new, old)) =
    if present old then
      match changed_attributes new old with
      | [] => user_mod ch
      | l => <[user_login new := l]> (user_mod ch)
      end
    else user_mod ch.
Proof.
  unfold user_step. simpl.
  destruct (present old); [|done]. by destruct (changed_attributes new old).
Qed.

Lemma user_step_user_add ch new old :
  user_add (user_step ch (new, old)) =
    if present old then user_add ch
    else <[user_login new := all_attributes new]> (user_add ch).
Proof.
  unfold user_step. simpl.
  destruct (present old); [|done]. by destruct (changed_attributes new old).
Qed.

Lemma user_step_group_add_member ch new old g :
  group_add_member (user_step ch (new, old)) !! g =
    if decide (g ∈ groups_to_add new old)
    then Some (default [] (group_add_member ch !! g)
               ++ [users_arg (user_login new)])%list
    else group_add_member ch !! g.
Proof.
  unfold user_step. simpl. rewrite foldl_dict_append_elements.
  unfold groups_to_add.
  destruct (present old); [|done]. by destruct (changed_attributes new old).
Qed.

Lemma user_step_group_remove_member ch new old g :
  group_remove_member (user_step ch (new, old)) !! g =
    if decide (g ∈ groups_to_remove new old)
    then Some (default [] (group_remove_member ch !! g)
               ++ [users_arg (user_login new)])%list
    else group_remove_member ch !! g.
Proof.
  unfold user_step. simpl. rewrite foldl_dict_append_elements.
  unfold groups_to_remove.
  destruct (present old); [|done]. by destruct (changed_attributes new old).
Qed.

(** ** The difference engine: the whole loop *)

Lemma extend_step o a l :
  extend (Some (default [] o ++ [a])%list) l = extend o (a :: l).
Proof. destruct l; simpl; [done|]. by rewrite <-app_assoc. Qed.

Lemma members_of_cons sel g p pairs :
  members_of sel g (p :: pairs) =
    if decide (g ∈ sel p.1 p.2)
    then users_arg (user_login p.1) :: members_of sel g pairs
    else members_of sel g pairs.
Proof.
  unfold members_of. rewrite filter_cons. simpl.
  by destruct (decide (g ∈ sel p.1 p.2)).
Qed.

Lemma foldl_user_step_group_add_member ch pairs g :
  group_add_member (foldl user_step ch pairs) !! g =
    extend (group_add_member ch !! g) (members_of groups_to_add g pairs).
Proof.
  revert ch. induction pairs as [|[new old] pairs IH]; intros ch; [done|].
  simpl. rewrite IH, user_step_group_add_member, members_of_cons. simpl.
  destruct (decide (g ∈ groups_to_add new old)); [|done].
  apply extend_step.
Qed.

Lemma foldl_user_step_group_remove_member ch pairs g :
  group_remove_member (foldl user_step ch pairs) !! g =
    extend (group_remove_member ch !! g)
           (members_of groups_to_remove g pairs).
Proof.
  revert ch. induction pairs as [|[new old] pairs IH]; intros ch; [done|].
  simpl. rewrite IH, user_step_group_remove_member, members_of_cons. simpl.
  destruct (decide (g ∈ groups_to_remove new old)); [|done].
  apply extend_step.
Qed.

Lemma extend_None l : extend None l = entry_of l.
Proof. by destruct l. Qed.

Lemma members_of_nil sel g pairs :
  (∀ p, p ∈ pairs → g ∉ sel p.1 p.2) → members_of sel g pairs = [].
Proof.
  intros H. unfold members_of.
  induction pairs as [|p pairs IH]; [done|].
  rewrite filter_cons. rewrite decide_False by (apply H; left).
  apply IH. intros q Hq. apply H. by right.
Qed.

Lemma user_step_no_group_delta ch new old :
  member_of_groups new ∖ DEFAULT_GROUPS = ipa_groups old ∖ DEFAULT_GROUPS →
  group_add_member (user_step ch (new, old)) = group_add_member ch ∧
  group_remove_member (user_step ch (new, old)) = group_remove_member ch.
Proof.
  intros Heq. split; apply map_eq; intros g.
  - rewrite user_step_group_add_member. rewrite decide_False; [done|].
    unfold groups_to_add. set_solver.
  - rewrite user_step_group_remove_member. rewrite decide_False; [done|].
    unfold groups_to_remove. set_solver.
Qed.

(** C8: for every group, the entry of [group-add-member] lists, in batch
    order, exactly the users with the group in (import groups ∪ default
    groups) − (directory groups ∪ default groups), and the entry of
    [group-remove-member] those with the group in the opposite difference;
    a group without such a user has no entry.  Hence a default group is a
    key of neither dict, and a pair whose group sets agree outside the
    default groups leaves both dicts as they were, whether or not a default
    group is listed on either side. *)
Theorem membership_deltas (csv_entries : list (csv_entry (gset string)))
    (ipa_entries : list ipa_entry) (group : string) :
  let d := find_user_differences csv_entries ipa_entries in
  group_add_member d !! group =
    entry_of (members_of
      (λ new old, (member_of_groups new ∪ DEFAULT_GROUPS)
                    ∖ (ipa_groups old ∪ DEFAULT_GROUPS))
      group (zip csv_entries ipa_entries)) ∧
  group_remove_member d !! group =
    entry_of (members_of
      (λ new old, (ipa_groups old ∪ DEFAULT_GROUPS)
                    ∖ (member_of_groups new ∪ DEFAULT_GROUPS))
      group (zip csv_entries ipa_entries)) ∧
  (group ∈ DEFAULT_GROUPS →
     group_add_member d !! group = None ∧
     group_remove_member d !! group = None) ∧
  (∀ changes new old,
     member_of_groups new ∖ DEFAULT_GROUPS = ipa_groups old ∖ DEFAULT_GROUPS →
     group_add_member (user_step changes (new, old))
       = group_add_member changes ∧
     group_remove_member (user_step changes (new, old))
       = group_remove_member changes).
Proof.
  intros d.
  assert (group_add_member d !! group =
            entry_of (members_of groups_to_add group
                        (zip csv_entries ipa_entries))) as Hadd.
  { unfold d, find_user_differences.
    rewrite foldl_user_step_group_add_member. apply extend_None. }
  assert (group_remove_member d !! group =
            entry_of (members_of groups_to_remove group
                        (zip csv_entries ipa_entries))) as Hrem.
  { unfold d, find_user_differences.
    rewrite foldl_user_step_group_remove_member. apply extend_None. }
  split; [exact Hadd|]. split; [exact Hrem|]. split.
  - intros Hdef. rewrite Hadd, Hrem.
    rewrite !members_of_nil; [done|..]; intros p _.
    + unfold groups_to_remove. set_solver.
    + unfold groups_to_add. set_solver.
  - intros. by apply user_step_no_group_delta.
Qed.

Lemma membership_deltas_witness :
  member_of_groups staff_new ∖ DEFAULT_GROUPS
    = ipa_groups staff_old ∖ DEFAULT_GROUPS ∧
  group_add_member (user_step no_differences (staff_new, staff_old))
    = group_add_member no_differences ∧
  group_remove_member (user_step no_differences (staff_new, staff_old))
    = group_remove_member no_differences ∧
  "ipausers" ∈ DEFAULT_GROUPS ∧
  group_add_member (find_user_differences [staff_new] [staff_old])
    !! "ipausers" = None ∧
  group_remove_member (find_user_differences [staff_new] [staff_old])
    !! "ipausers" = None.
Proof.
  assert (member_of_groups staff_new ∖ DEFAULT_GROUPS
            = ipa_groups staff_old ∖ DEFAULT_GROUPS) as H
    by (vm_compute; reflexivity).
  assert ("ipausers" ∈ DEFAULT_GROUPS) as Hd by (vm_compute; reflexivity).
  split; [exact H|].
  pose proof (proj2 (proj2 (proj2
                (membership_deltas [staff_new] [staff_old] "staff")))
                no_differences staff_new staff_old H) as [Ha Hr].
  pose proof (proj1 (proj2 (proj2
                (membership_deltas [staff_new] [staff_old] "ipausers")))
                Hd) as [Ha' Hr'].
  repeat split; assumption.
Defined.

(** ** Attribute changes *)

Lemma foldl_user_step_user_mod ch pairs user l :
  user_mod (foldl user_step ch pairs) !! user = Some l →
  user_mod ch !! user = Some l ∨
  ∃ new old, (new, old) ∈ pairs ∧ user_login new = user ∧
    present old = true ∧ l ≠ [] ∧ l = changed_attributes new old.
Proof.
  revert ch. induction pairs as [|[new old] pairs IH]; intros ch; [by left|].
  simpl. intros [H|(new' & old' & Hin & ?)]%IH.
  - rewrite user_step_user_mod in H.
    destruct (present old) eqn:Hp; [|by left].
    destruct (changed_attributes new old) as [|a l'] eqn:Hc; [by left|].
    destruct (decide (user_login new = user)) as [Heq|Hne].
    + rewrite Heq, lookup_insert_eq in H. injection H as <-.
      right. exists new, old. split; [left|]. by rewrite Hc.
    + rewrite lookup_insert_ne in H by done. by left.
  - right. exists new', old'. split; [by right|done].
Qed.

Lemma foldl_user_step_user_add ch pairs user l :
  user_add (foldl user_step ch pairs) !! user = Some l →
  user_add ch !! user = Some l ∨
  ∃ new old, (new, old) ∈ pairs ∧ user_login new = user ∧
    present old = false ∧ l = all_attributes new.
Proof.
  revert ch. induction pairs as [|[new old] pairs IH]; intros ch; [by left|].
  simpl. intros [H|(new' & old' & Hin & ?)]%IH.
  - rewrite user_step_user_add in H.
    destruct (present old) eqn:Hp; [by left|].
    destruct (decide (user_login new = user)) as [Heq|Hne].
    + rewrite Heq, lookup_insert_eq in H. injection H as <-.
      right. exists new, old. split; [left|]. done.
    + rewrite lookup_insert_ne in H by done. by left.
  - right. exists new', old'. split; [by right|done].
Qed.

Lemma changed_attributes_nil new old :
  (∀ key flag, (key, flag) ∈ IPA_CMDLINE_MAP →
     Str.strip (csv_get new key) = Str.strip (ipa_get old key)) →
  changed_attributes new old = [].
Proof.
  intros H. unfold changed_attributes.
  assert (∀ m : list (string * string),
            (∀ kc, kc ∈ m → kc ∈ IPA_CMDLINE_MAP) →
            filter (λ kc, Str.strip (csv_get new kc.1)
                            ≠ Str.strip (ipa_get old kc.1)) m = []) as Hm.
  { induction m as [|[k f] m IH]; intros Hsub; [done|].
    rewrite filter_cons. simpl. rewrite decide_False.
    - apply IH. intros kc Hkc. apply Hsub. by right.
    - intros Hne. apply Hne, (H k f), Hsub. left. }
  by rewrite Hm.
Qed.

(** The flag of an assignment determines the assignment: two tracked
    fields never produce the same argument text unless they are the same
    field with the same value. *)
Lemma assignment_inj key1 flag1 v1 key2 flag2 v2 :
  (key1, flag1) ∈ IPA_CMDLINE_MAP → (key2, flag2) ∈ IPA_CMDLINE_MAP →
  assignment flag1 v1 = assignment flag2 v2 → key1 = key2 ∧ v1 = v2.
Proof.
  unfold IPA_CMDLINE_MAP. rewrite !elem_of_cons, !elem_of_nil.
  intros H1 H2 Heq.
  destruct H1 as [H1|[H1|[H1|[H1|[H1|[]]]]]];
    destruct H2 as [H2|[H2|[H2|[H2|[H2|[]]]]]];
    injection H1 as -> ->; injection H2 as -> ->;
    vm_compute in Heq; first [discriminate Heq | by injection Heq].
Qed.

(** C7: an entry of [user-mod] comes from a pair of the batch whose
    directory entry is present; it is not empty and lists, in the order of
    the tracked fields, the assignment of exactly those fields whose
    stripped import value differs from the stripped directory value, so the
    assignment of a field with equal stripped values is never in it.  A pair
    without any differing field leaves [user-mod] as it was. *)
Theorem user_mod_lists_only_changes
    (csv_entries : list (csv_entry (gset string)))
    (ipa_entries : list ipa_entry) :
  (∀ user l,
     user_mod (find_user_differences csv_entries ipa_entries) !! user = Some l →
     ∃ new old,
       (new, old) ∈ zip csv_entries ipa_entries ∧
       user_login new = user ∧ present old = true ∧ l ≠ [] ∧
       l = (λ kc, assignment kc.2 (Str.strip (csv_get new kc.1)))
             <$> filter (λ kc, Str.strip (csv_get new kc.1)
                                 ≠ Str.strip (ipa_get old kc.1))
                        IPA_CMDLINE_MAP ∧
       ∀ key flag, (key, flag) ∈ IPA_CMDLINE_MAP →
         (assignment flag (Str.strip (csv_get new key)) ∈ l ↔
          Str.strip (csv_get new key) ≠ Str.strip (ipa_get old key))) ∧
  (∀ changes new old,
     (∀ key flag, (key, flag) ∈ IPA_CMDLINE_MAP →
        Str.strip (csv_get new key) = Str.strip (ipa_get old key)) →
     user_mod (user_step changes (new, old)) = user_mod changes).
Proof.
  split.
  - intros user l H. unfold find_user_differences in H.
    apply foldl_user_step_user_mod in H
      as [H|(new & old & Hin & Hu & Hp & Hne & Hl)].
    { simpl in H. by rewrite lookup_empty in H. }
    exists new, old. do 4 (split; [done|]). split; [exact Hl|].
    intros key flag Hk. rewrite Hl. unfold changed_attributes.
    rewrite list_elem_of_fmap. split.
    + intros ([key' flag'] & Heq & Hin'). simpl in Heq.
      apply list_elem_of_filter in Hin' as [Hd Hin']. simpl in Hd.
      destruct (assignment_inj _ _ _ _ _ _ Hk Hin' Heq) as [-> _]. done.
    + intros Hd. exists (key, flag). split; [done|].
      by apply list_elem_of_filter.
  - intros ch new old H. rewrite user_step_user_mod.
    rewrite (changed_attributes_nil _ _ H). by destruct (present old).
Qed.

Lemma user_mod_lists_only_changes_witness :
  user_mod (user_step no_differences (staff_new, staff_old))
    = user_mod no_differences ∧
  user_mod (find_user_differences [renamed_new] [staff_old]) !! "ann"
    = Some ["--first=Anne"] ∧
  ∃ new old,
    (new, old) ∈ zip [renamed_new] [staff_old] ∧
    user_login new = "ann" ∧ present old = true ∧
    (assignment "first" (Str.strip (csv_get new "first_name"))
       ∈ ["--first=Anne"] ↔
     Str.strip (csv_get new "first_name")
       ≠ Str.strip (ipa_get old "first_name")).
Proof.
  split; [|split].
  - apply (proj2 (user_mod_lists_only_changes [staff_new] [staff_old])).
    intros key flag Hk. unfold IPA_CMDLINE_MAP in Hk.
    rewrite !elem_of_cons, elem_of_nil in Hk.
    destruct Hk as [Hk|[Hk|[Hk|[Hk|[Hk|[]]]]]]; injection Hk as -> ->;
      vm_compute; reflexivity.
  - vm_compute. reflexivity.
  - destruct (proj1 (user_mod_lists_only_changes [renamed_new] [staff_old])
                "ann" ["--first=Anne"])
      as (new & old & Hin & Hu & Hp & _ & _ & Hl).
    { vm_compute. reflexivity. }
    exists new, old. repeat split; try assumption.
    + apply (Hl "first_name" "first"). left.
    + apply (Hl "first_name" "first"). left.
Defined.

(** ** Pairing of the two sequences *)

Lemma omap_none {A B} (f : A → option B) (l : list A) :
  (∀ x, f x = None) → omap f l = [].
Proof. intros H. induction l as [|x l IH]; [done|]. simpl. by rewrite H. Qed.

Lemma omap_fmap {A B C} (f : B → option C) (g : A → B) (l : list A) :
  omap f (g <$> l) = omap (f ∘ g) l.
Proof.
  induction l as [|x l IH]; [done|].
  simpl. destruct (f (g x)); by f_equal.
Qed.

Lemma pairs_by_position_zip {A B} (l : list A) (k : list B) :
  pairs_by_position l k = zip l k.
Proof.
  unfold pairs_by_position. revert k.
  induction l as [|x l IH]; intros k; [done|].
  simpl. rewrite <-fmap_S_seq, omap_fmap.
  destruct k as [|y k]; simpl.
  - apply omap_none. intros i. simpl. by destruct (l !! i).
  - f_equal. exact (IH k).
Qed.

(** C10: the records are paired by position, index by index, and the plan
    is built from those pairs alone; when the directory sequence is as long
    as an initial part of the import sequence, the import records after
    that part change nothing in any of the four dicts. *)
Theorem unpaired_rows_are_dropped
    (csv_entries extra : list (csv_entry (gset string)))
    (ipa_entries : list ipa_entry) :
  find_user_differences csv_entries ipa_entries
    = foldl user_step no_differences
        (pairs_by_position csv_entries ipa_entries) ∧
  (length csv_entries = length ipa_entries →
   find_user_differences (csv_entries ++ extra) ipa_entries
     = find_user_differences csv_entries ipa_entries).
Proof.
  split.
  - by rewrite pairs_by_position_zip.
  - intros Hlen. unfold find_user_differences.
    apply (f_equal (foldl user_step no_differences)).
    rewrite zip_with_app_l.
    rewrite Hlen, drop_ge, take_ge by lia.
    by rewrite zip_with_nil_r, app_nil_r.
Qed.

Lemma unpaired_rows_are_dropped_witness :
  find_user_differences ([staff_new] ++ [staff_new; staff_new]) [staff_old]
    = find_user_differences [staff_new] [staff_old].
Proof.
  apply (proj2 (unpaired_rows_are_dropped
                  [staff_new] [staff_new; staff_new] [staff_old])).
  reflexivity.
Defined.

(** ** Execution of a plan *)

Section Commit.

Variable run : list string → outcome.

(** A loop whose turns start the commands [full x], or a front part of
    them when a call raises, starts the concatenation of the [full x], or
    a front part of it. *)
Lemma for_each_started {A} (body : () → A → proc ()) (full : A → list (list string))
    (l : list A) :
  (∀ x, started (body () x) `prefix_of` full x ∧
        (is_Some (value (body () x)) → started (body () x) = full x)) →
  started (for_each body () l) `prefix_of` mjoin (full <$> l) ∧
  (is_Some (value (for_each body () l)) →
     started (for_each body () l) = mjoin (full <$> l)).
Proof.
  intros Hbody. induction l as [|x l [IHp IHv]].
  { split; [apply prefix_nil|done]. }
  destruct (Hbody x) as [Hp Hv].
  simpl. unfold mbind, proc_bind.
  destruct (value (body () x)) as [[]|] eqn:E; simpl.
  - rewrite Hv by done. split; [by apply prefix_app|].
    intros Hs. by rewrite IHv.
  - split; [by apply prefix_app_r|]. by intros [? ?].
Qed.

Lemma join_singletons {A B} (f : A → B) (l : list A) :
  mjoin ((λ x, [f x]) <$> l) = f <$> l.
Proof. induction l as [|x l IH]; [done|]. simpl. by f_equal. Qed.

Lemma for_each_value {A} (body : () → A → proc ()) (l : list A) :
  (∀ x, x ∈ l → is_Some (value (body () x))) →
  is_Some (value (for_each body () l)).
Proof.
  induction l as [|x l IH]; intros H; [by eexists|].
  simpl. unfold mbind, proc_bind.
  destruct (H x) as [[] E]; [left|]. rewrite E. simpl.
  apply IH. intros y Hy. apply H. by right.
Qed.

Lemma commit_item_started c item :
  started (commit_item run c () item) `prefix_of` [command_line c item] ∧
  (is_Some (value (commit_item run c () item)) →
     started (commit_item run c () item) = [command_line c item]).
Proof.
  unfold commit_item, subprocess_call, mbind, proc_bind.
  destruct (run (command_line c item)); simpl.
  - done.
  - split; [apply prefix_nil|]. by intros [? ?].
Qed.

Lemma commit_changes_in_started items :
  started (commit_changes_in run items) `prefix_of` command_lines_in items ∧
  (is_Some (value (commit_changes_in run items)) →
     started (commit_changes_in run items) = command_lines_in items).
Proof.
  unfold commit_changes_in, command_lines_in.
  apply (for_each_started
           (λ _ c, for_each (commit_item run c) () (items c))
           (λ c, command_line c <$> items c)).
  intros c. rewrite <-join_singletons.
  apply for_each_started. intros item. apply commit_item_started.
Qed.

Lemma commit_changes_in_value items :
  (∀ argv, run argv ≠ OSError) →
  is_Some (value (commit_changes_in run items)).
Proof.
  intros Hrun. unfold commit_changes_in.
  apply for_each_value. intros c _.
  apply (for_each_value (commit_item run c)). intros item _.
  unfold commit_item, subprocess_call, mbind, proc_bind.
  specialize (Hrun (command_line c item)).
  destruct (run (command_line c item)); [by eexists|done].
Qed.

(** [commit_changes] is the loop in the order of [map_to_list]. *)
Lemma commit_changes_in_map_to_list ch :
  commit_changes run ch
    = commit_changes_in run (λ c, map_to_list (changes_get ch c)).
Proof. reflexivity. Qed.

End Commit.

Lemma issued_command_line c item :
  issued_command (command_line c item) = Some c.
Proof. by destruct c. Qed.

Lemma in_order_block (t : list (list string)) (k : nat) :
  (∀ a, a ∈ t → rank_of a = k) → in_order t.
Proof.
  intros H i j a b Ha Hb Hlt.
  apply list_elem_of_lookup_2 in Ha, Hb.
  rewrite (H a Ha), (H b Hb) in Hlt. lia.
Qed.

Lemma in_order_app (t1 t2 : list (list string)) (k : nat) :
  (∀ a, a ∈ t1 → (rank_of a ≤ k)%nat) → (∀ b, b ∈ t2 → (k ≤ rank_of b)%nat) →
  in_order t1 → in_order t2 → in_order (t1 ++ t2).
Proof.
  intros H1 H2 O1 O2 i j a b Ha Hb Hlt.
  apply lookup_app_Some in Ha as [Ha|[Hi Ha]];
    apply lookup_app_Some in Hb as [Hb|[Hj Hb]].
  - by eapply O1.
  - apply lookup_lt_Some in Ha. lia.
  - apply list_elem_of_lookup_2 in Ha, Hb.
    specialize (H2 a Ha). specialize (H1 b Hb). lia.
  - specialize (O2 _ _ _ _ Ha Hb Hlt). lia.
Qed.

Lemma block_rank c (items : list (string * list string)) a :
  a ∈ command_line c <$> items → rank_of a = rank c.
Proof.
  intros (item & -> & _)%list_elem_of_fmap.
  unfold rank_of. by rewrite issued_command_line.
Qed.

Lemma command_lines_in_order items : in_order (command_lines_in items).
Proof.
  unfold command_lines_in. simpl. rewrite app_nil_r.
  apply (in_order_app _ _ 0).
  { intros a Ha. by rewrite (block_rank _ _ _ Ha). }
  { intros b. rewrite !elem_of_app.
    intros [H|[H|[H|H]]]; rewrite (block_rank _ _ _ H); simpl; lia. }
  { eapply in_order_block. intros a. apply block_rank. }
  apply (in_order_app _ _ 1).
  { intros a Ha. by rewrite (block_rank _ _ _ Ha). }
  { intros b. rewrite !elem_of_app.
    intros [H|[H|H]]; rewrite (block_rank _ _ _ H); simpl; lia. }
  { eapply in_order_block. intros a. apply block_rank. }
  apply (in_order_app _ _ 2).
  { intros a Ha. by rewrite (block_rank _ _ _ Ha). }
  { intros b. rewrite !elem_of_app.
    intros [H|H]; rewrite (block_rank _ _ _ H); simpl; lia. }
  { eapply in_order_block. intros a. apply block_rank. }
  apply (in_order_app _ _ 3).
  { intros a Ha. by rewrite (block_rank _ _ _ Ha). }
  { intros b H. rewrite (block_rank _ _ _ H); simpl; lia. }
  { eapply in_order_block. intros a. apply block_rank. }
  eapply in_order_block. intros a. apply block_rank.
Qed.

(** The items of a visit of the dict are the entries of the dict. *)
Lemma visit_elem (d : gmap string (list string)) items key args :
  items ≡ₚ map_to_list d →
  (key, args) ∈ items ↔ d !! key = Some args.
Proof. intros ->. apply elem_of_map_to_list. Qed.

Lemma command_lines_in_elem ch items c key args :
  (∀ c, items c ≡ₚ map_to_list (changes_get ch c)) →
  changes_get ch c !! key = Some args →
  command_line c (key, args) ∈ command_lines_in items.
Proof.
  intros Hitems H. apply (visit_elem _ _ _ _ (Hitems c)) in H.
  unfold command_lines_in. apply list_elem_of_join.
  exists (command_line c <$> items c).
  split.
  - apply list_elem_of_fmap. by exists (key, args).
  - apply list_elem_of_fmap. exists c. split; [done|].
    destruct c; set_solver.
Qed.

Lemma command_lines_in_inv ch items a :
  (∀ c, items c ≡ₚ map_to_list (changes_get ch c)) →
  a ∈ command_lines_in items →
  ∃ c key args, changes_get ch c !! key = Some args ∧
                a = command_line c (key, args).
Proof.
  intros Hitems. unfold command_lines_in.
  intros (l & Ha & (c & -> & _)%list_elem_of_fmap)%list_elem_of_join.
  apply list_elem_of_fmap in Ha as ([key args] & -> & Hin).
  apply (visit_elem _ _ _ _ (Hitems c)) in Hin. by exists c, key, args.
Qed.

(** C2: whatever the order in which the loop over a category visits the
    items of the category, the commands that [commit_changes] starts are
    command lines of items of the plan, and a command of an earlier
    category (in the order user-add, user-mod, group-add,
    group-add-member, group-remove-member) always stands before a command
    of a later category.  When no call raises, the run completes and has
    started, category after category in that order and each category in
    the order of the visit, the command line of every item of the plan. *)
Theorem commit_changes_order (run : list string → outcome) (ch : changes)
    (items : command → list (string * list string)) :
  (∀ c, items c ≡ₚ map_to_list (changes_get ch c)) →
  let t := started (commit_changes_in run items) in
  (∀ (i j : nat) a b ca cb,
     t !! i = Some a → t !! j = Some b →
     issued_command a = Some ca → issued_command b = Some cb →
     (rank ca < rank cb)%nat → (i < j)%nat) ∧
  (∀ a, a ∈ t →
     ∃ c key args, changes_get ch c !! key = Some args ∧
                   a = command_line c (key, args)) ∧
  ((∀ argv, run argv ≠ OSError) →
     value (commit_changes_in run items) = Some () ∧
     t = mjoin ((λ c, command_line c <$> items c)
                  <$> [UserAdd; UserMod; GroupAdd; GroupAddMember;
                       GroupRemoveMember]) ∧
     ∀ c key args, changes_get ch c !! key = Some args →
                   command_line c (key, args) ∈ t).
Proof.
  intros Hitems t. destruct (commit_changes_in_started run items) as [Hp Hv].
  split; [|split].
  - intros i j a b ca cb Ha Hb Hca Hcb Hlt.
    apply (command_lines_in_order items i j a b).
    + by eapply prefix_lookup_Some.
    + by eapply prefix_lookup_Some.
    + unfold rank_of. by rewrite Hca, Hcb.
  - intros a Ha. apply (command_lines_in_inv ch items); [done|].
    destruct Hp as [k Hk]. rewrite Hk. apply elem_of_app. by left.
  - intros Hrun. pose proof (commit_changes_in_value run items Hrun) as Hs.
    specialize (Hv Hs). split; [|split].
    + destruct Hs as [[] E]. exact E.
    + exact Hv.
    + intros c key args H. unfold t. rewrite Hv.
      by apply (command_lines_in_elem ch).
Qed.

Lemma two_groups_items_visit c :
  two_groups_items c ≡ₚ map_to_list (changes_get two_groups_plan c).
Proof.
  assert (map_to_list (∅ : gmap string (list string)) = []) as He
    by apply map_to_list_empty.
  destruct c; unfold two_groups_items, changes_get.
  - change (changes_user_add two_groups_plan) with (∅ : gmap string (list string)).
    by rewrite He.
  - change (changes_user_mod two_groups_plan) with (∅ : gmap string (list string)).
    by rewrite He.
  - change (changes_group_add two_groups_plan) with (∅ : gmap string (list string)).
    by rewrite He.
  - assert (map_to_list (changes_group_add_member two_groups_plan)
            = [("buero", ["--users=u2"]); ("team", ["--users=u1"])]) as ->
      by (vm_compute; reflexivity).
    apply perm_swap.
  - change (changes_group_remove_member two_groups_plan)
      with (∅ : gmap string (list string)).
    by rewrite He.
Defined.

Lemma small_plan_visit c :
  map_to_list (changes_get small_plan c)
    ≡ₚ map_to_list (changes_get small_plan c).
Proof. reflexivity. Defined.

Lemma commit_changes_order_witness :
  started (commit_changes_in (λ _, Exit 0) two_groups_items)
    = [ ["ipa"; "--no-prompt"; "group-add-member"; "team"; "--users=u1"];
        ["ipa"; "--no-prompt"; "group-add-member"; "buero"; "--users=u2"] ] ∧
  value (commit_changes_in (λ _, Exit 0) two_groups_items) = Some () ∧
  (0 < 1)%nat.
Proof.
  destruct (proj2 (proj2 (commit_changes_order (λ _, Exit 0) two_groups_plan
                            two_groups_items two_groups_items_visit)))
    as (Hv & Ht & _).
  { intros argv. discriminate. }
  split; [exact Ht|]. split; [exact Hv|].
  apply (proj1 (commit_changes_order (λ _, Exit 0) small_plan
                  (λ c, map_to_list (changes_get small_plan c))
                  small_plan_visit) 0 1
           ["ipa"; "--no-prompt"; "user-add"; "ann"; "--first=Ann"]
           ["ipa"; "--no-prompt"; "group-remove-member"; "staff";
            "--users=bob"]
           UserAdd GroupRemoveMember);
    vm_compute; first [reflexivity | lia].
Defined.

(** ** The group resolver *)

Section Resolver.

Variable run : list string → outcome.
Variable group_descriptions : gmap string string.

Lemma check_group_value changes group :
  value (check_group run group_descriptions changes group) =
    match run (group_show group) with
    | Exit status =>
        Some (if bool_decide (status ≠ 0%Z)
              then <[group := description_args group_descriptions group]>
                     changes
              else changes)
    | OSError => None
    end.
Proof.
  unfold check_group, subprocess_call, mbind, proc_bind.
  destruct (run _) as [status|]; simpl; [|done].
  by destruct (bool_decide (status ≠ 0%Z)).
Qed.

Lemma resolver_loop_raises acc l g :
  g ∈ l → run (group_show g) = OSError →
  value (for_each (check_group run group_descriptions) acc l) = None.
Proof.
  revert acc. induction l as [|x l IH]; intros acc Hin Hrun.
  { by apply elem_of_nil in Hin. }
  simpl. unfold mbind, proc_bind at 1.
  destruct (value (check_group run group_descriptions acc x)) as [acc'|] eqn:E; [|done]. simpl.
  apply elem_of_cons in Hin as [->|Hin]; [|by apply IH].
  by rewrite check_group_value, Hrun in E.
Qed.

Lemma resolver_loop_completes acc l :
  (∀ g, g ∈ l → run (group_show g) ≠ OSError) →
  is_Some (value (for_each (check_group run group_descriptions) acc l)).
Proof.
  revert acc. induction l as [|x l IH]; intros acc H; [by eexists|].
  simpl. unfold mbind, proc_bind at 1.
  destruct (value (check_group run group_descriptions acc x)) as [acc'|] eqn:E; simpl.
  - apply IH. intros g Hg. apply H. by right.
  - rewrite check_group_value in E. specialize (H x (list_elem_of_here _ _)).
    by destruct (run (group_show x)).
Qed.

Lemma resolver_loop_lookup acc l m g :
  value (for_each (check_group run group_descriptions) acc l) = Some m →
  m !! g =
    match run (group_show g) with
    | Exit status =>
        if decide (g ∈ l ∧ status ≠ 0%Z)
        then Some (description_args group_descriptions g)
        else acc !! g
    | OSError => acc !! g
    end.
Proof.
  revert acc. induction l as [|x l IH]; intros acc.
  { simpl. intros [= <-]. by destruct (run (group_show g)). }
  simpl. unfold mbind, proc_bind at 1.
  destruct (value (check_group run group_descriptions acc x)) as [acc'|] eqn:E; [|done]. simpl.
  intros H. rewrite (IH _ H). rewrite check_group_value in E.
  destruct (decide (g = x)) as [->|Hne].
  - destruct (run (group_show x)) as [status|]; [|done].
    injection E as <-.
    destruct (decide (status = 0%Z)) as [->|Hs].
    + rewrite bool_decide_false by (intros ?; done).
      rewrite !decide_False; [done|..]; by intros [_ ?].
    + rewrite bool_decide_true by done.
      destruct (decide (x ∈ l ∧ status ≠ 0%Z)).
      * rewrite decide_True; [done|]. split; [left|done].
      * rewrite decide_True by (split; [left|done]).
        apply lookup_insert_eq.
  - assert (acc' !! g = acc !! g) as ->.
    { destruct (run (group_show x)) as [status|]; [|done].
      injection E as <-. destruct (bool_decide (status ≠ 0%Z)); [|done].
      by apply lookup_insert_ne. }
    destruct (run (group_show g)) as [status|]; [|done].
    destruct (decide (g ∈ l ∧ status ≠ 0%Z)) as [[? ?]|Hn].
    + rewrite decide_True; [done|]. split; [by right|done].
    + rewrite decide_False; [done|].
      intros [[?|?]%elem_of_cons ?]; [done|]. by apply Hn.
Qed.

Lemma find_group_changes_unfold d :
  find_group_changes run d group_descriptions =
    for_each (check_group run group_descriptions) ∅ (elements (dom (group_add_member d))).
Proof. done. Qed.

(** [find_group_changes] is the loop in the order of [elements]. *)
Lemma find_group_changes_in_elements d :
  find_group_changes run d group_descriptions =
    find_group_changes_in run (elements (dom (group_add_member d)))
      group_descriptions.
Proof. reflexivity. Qed.

Lemma find_group_changes_lookup d m g :
  value (find_group_changes run d group_descriptions) = Some m →
  m !! g =
    match run (group_show g) with
    | Exit status =>
        if decide (g ∈ dom (group_add_member d) ∧ status ≠ 0%Z)
        then Some (description_args group_descriptions g)
        else None
    | OSError => None
    end.
Proof.
  rewrite find_group_changes_unfold. intros H.
  rewrite (resolver_loop_lookup _ _ _ g H), lookup_empty.
  destruct (run (group_show g)) as [status|]; [|done].
  destruct (decide (g ∈ dom (group_add_member d) ∧ status ≠ 0%Z))
    as [[? ?]|Hn].
  - rewrite decide_True; [done|]. by rewrite elem_of_elements.
  - rewrite decide_False; [done|]. by rewrite elem_of_elements.
Qed.

End Resolver.

(** C1 (as amended): for a group that is a key of [group-add-member], the
    resolver fails only when the existence check cannot be started, and
    then the failure reaches the caller.  When the check runs, every exit
    status other than 0 - also one that reports a failed check and not a
    missing group - makes the resolver schedule the group for creation, and
    status 0 makes it skip the group; the resolver returns a result as soon
    as every check can be started. *)
Theorem nonzero_status_means_creation (run : list string → outcome)
    (d : differences) (group_descriptions : gmap string string)
    (group : string) :
  group ∈ dom (group_add_member d) →
  (run (group_show group) = OSError →
     value (find_group_changes run d group_descriptions) = None) ∧
  (∀ status m,
     run (group_show group) = Exit status →
     value (find_group_changes run d group_descriptions) = Some m →
     m !! group = if bool_decide (status ≠ 0%Z)
                  then Some (description_args group_descriptions group)
                  else None) ∧
  ((∀ g, g ∈ dom (group_add_member d) → run (group_show g) ≠ OSError) →
     is_Some (value (find_group_changes run d group_descriptions))).
Proof.
  intros Hin. split; [|split].
  - intros Hrun. rewrite find_group_changes_unfold.
    apply (resolver_loop_raises _ _ _ _ group); [|done].
    by apply elem_of_elements.
  - intros status m Hrun Hm.
    rewrite (find_group_changes_lookup _ _ _ _ group Hm), Hrun.
    destruct (decide (status = 0%Z)) as [->|Hs].
    + rewrite bool_decide_false by (intros ?; done).
      rewrite decide_False; [done|]. by intros [_ ?].
    + rewrite bool_decide_true by done. by rewrite decide_True.
  - intros H. rewrite find_group_changes_unfold.
    apply resolver_loop_completes. intros g Hg. apply H.
    by apply elem_of_elements.
Qed.

Lemma nonzero_status_means_creation_witness :
  "staff" ∈ dom (group_add_member one_group_differences) ∧
  value (find_group_changes failing_tool one_group_differences ∅)
    = Some {[ "staff" := [] ]} ∧
  ({[ "staff" := [] ]} : gmap string (list string)) !! "staff" = Some [] ∧
  value (find_group_changes absent_tool one_group_differences ∅) = None.
Proof.
  assert ("staff" ∈ dom (group_add_member one_group_differences)) as Hin
    by (vm_compute; reflexivity).
  assert (value (find_group_changes failing_tool one_group_differences ∅)
            = Some {[ "staff" := [] ]}) as Hm
    by (vm_compute; reflexivity).
  split; [exact Hin|]. split; [exact Hm|]. split.
  - exact (proj1 (proj2 (nonzero_status_means_creation failing_tool
                           one_group_differences ∅ "staff" Hin))
             1%Z {[ "staff" := [] ]} eq_refl Hm).
  - exact (proj1 (nonzero_status_means_creation absent_tool
                    one_group_differences ∅ "staff" Hin) eq_refl).
Defined.

(** C1 (as the specification words it, refuted): with [failing_tool] the
    existence check of [staff] fails (exit status 1); the resolver does not
    fail but returns a result that schedules [staff] for creation. *)
Lemma failed_check_defaults_to_creation :
  group_show_answer (failing_tool (group_show "staff")) = CheckFailed ∧
  map_to_list <$> value (find_group_changes failing_tool
                           one_group_differences ∅)
    = Some [("staff", [])].
Proof. vm_compute. done. Qed.

(** ** The plan of [main] *)

Lemma zip_fmap_elem {A B} (f : A → B) (l : list A) x y :
  (x, y) ∈ zip l (f <$> l) → y = f x.
Proof.
  intros (i & Hi)%list_elem_of_lookup_1.
  apply lookup_zip_with_Some in Hi as (x' & y' & [= -> ->] & Hx & Hy).
  rewrite list_lookup_fmap, Hx in Hy. by injection Hy.
Qed.

Lemma ipa_entries_of_fmap user_show csv :
  ipa_entries_of user_show csv =
    (λ new, fix_ipa_group (user_show (user_login new))) <$> csv.
Proof.
  unfold ipa_entries_of, fix_ipa_groups, query_ipa.
  by rewrite <-!list_fmap_compose.
Qed.

Lemma main_changes_value run user_show rows plan :
  value (main_changes run user_show rows) = Some plan →
  ∃ m,
    value (find_group_changes run
             (find_user_differences (csv_entries_of rows)
                (ipa_entries_of user_show (csv_entries_of rows)))
             (fix_csv_group_names rows).2) = Some m ∧
    plan = Changes
      (user_mod (find_user_differences (csv_entries_of rows)
                   (ipa_entries_of user_show (csv_entries_of rows))))
      (user_add (find_user_differences (csv_entries_of rows)
                   (ipa_entries_of user_show (csv_entries_of rows))))
      (group_add_member (find_user_differences (csv_entries_of rows)
                   (ipa_entries_of user_show (csv_entries_of rows))))
      (group_remove_member (find_user_differences (csv_entries_of rows)
                   (ipa_entries_of user_show (csv_entries_of rows))))
      m.
Proof.
  unfold main_changes, mbind, proc_bind. intros H.
  destruct (value (find_group_changes run _ _)) as [m|]; [|done].
  simpl in H. injection H as <-. by exists m.
Qed.

Lemma NoDup_fmap_elem {A B} (f : A → B) (l : list A) x y :
  NoDup (f <$> l) → x ∈ l → y ∈ l → f x = f y → x = y.
Proof.
  induction l as [|z l IH]; intros Hnd Hx Hy Heq.
  { by apply elem_of_nil in Hx. }
  rewrite fmap_cons in Hnd. apply NoDup_cons in Hnd as [Hfresh Hnd].
  apply elem_of_cons in Hx as [->|Hx]; apply elem_of_cons in Hy as [->|Hy].
  - done.
  - exfalso. apply Hfresh. rewrite Heq. by apply list_elem_of_fmap_2.
  - exfalso. apply Hfresh. rewrite <-Heq. by apply list_elem_of_fmap_2.
  - by apply IH.
Qed.

Lemma zip_logins_NoDup (csv : list (csv_entry (gset string)))
    (ipa : list ipa_entry) :
  NoDup (user_login <$> csv) →
  NoDup ((λ p, user_login p.1) <$> zip csv ipa).
Proof.
  revert ipa. induction csv as [|new csv IH]; intros ipa Hnd.
  { apply NoDup_nil_2. }
  rewrite fmap_cons in Hnd. apply NoDup_cons in Hnd as [Hfresh Hnd].
  destruct ipa as [|old ipa]; [apply NoDup_nil_2|].
  simpl. apply NoDup_cons. split; [|by apply IH].
  intros ([new' old'] & Heq & Hin)%list_elem_of_fmap. simpl in Heq.
  apply Hfresh, list_elem_of_fmap. exists new'.
  split; [done|]. by apply elem_of_zip_l in Hin.
Qed.

(** C9 (as amended): take the plan made of the dicts of
    [find_user_differences], for any import and directory sequences, and
    of the dict of [find_group_changes], whatever the order in which its
    loop visits the groups.  When the logins of the batch are all
    different, no login is a key of both [user-add] and [user-mod]; and,
    for every batch, every key of [group-add] is a key of
    [group-add-member]. *)
Theorem plan_invariants (csv_entries : list (csv_entry (gset string)))
    (ipa_entries : list ipa_entry) (run : list string → outcome)
    (group_descriptions : gmap string string) (groups : list string)
    (group_add : gmap string (list string)) :
  let d := find_user_differences csv_entries ipa_entries in
  groups ≡ₚ elements (dom (group_add_member d)) →
  value (find_group_changes_in run groups group_descriptions)
    = Some group_add →
  let plan := Changes (user_mod d) (user_add d) (group_add_member d)
                (group_remove_member d) group_add in
  (NoDup (user_login <$> csv_entries) →
   dom (changes_user_add plan) ∩ dom (changes_user_mod plan) = ∅) ∧
  dom (changes_group_add plan) ⊆ dom (changes_group_add_member plan).
Proof.
  intros d Hgroups Hm plan. unfold plan. simpl. split.
  - intros Hnd. apply set_eq. intros login.
    rewrite elem_of_intersection, !elem_of_dom.
    split; [|by intros ?%elem_of_empty].
    intros [[la Ha] [lm Hmod]]. exfalso.
    unfold d, find_user_differences in Ha, Hmod.
    apply foldl_user_step_user_add in Ha
      as [Ha|(new1 & old1 & Hin1 & Hu1 & Hp1 & _)];
      [simpl in Ha; by rewrite lookup_empty in Ha|].
    apply foldl_user_step_user_mod in Hmod
      as [Hmod|(new2 & old2 & Hin2 & Hu2 & Hp2 & _)];
      [simpl in Hmod; by rewrite lookup_empty in Hmod|].
    assert ((new1, old1) = (new2, old2)) as Heq.
    { apply (NoDup_fmap_elem (λ p, user_login p.1)
               (zip csv_entries ipa_entries));
        [by apply zip_logins_NoDup|done..|].
      simpl. by rewrite Hu1, Hu2. }
    injection Heq as -> ->. congruence.
  - intros group [l Hl]%elem_of_dom.
    unfold find_group_changes_in in Hm.
    rewrite (resolver_loop_lookup _ _ _ _ _ group Hm), lookup_empty in Hl.
    destruct (run (group_show group)) as [status|]; [|done].
    destruct (decide _) as [[Hin _]|]; [|done].
    rewrite Hgroups in Hin. by apply elem_of_elements in Hin.
Qed.

Lemma plan_invariants_witness :
  NoDup (user_login <$> ann_and_bob) ∧
  (dom (user_add (find_user_differences ann_and_bob unknown_then_known))
     ∩ dom (user_mod (find_user_differences ann_and_bob unknown_then_known))
   = ∅) ∧
  dom ({[ "staff" := [] ]} : gmap string (list string))
    ⊆ dom (group_add_member
             (find_user_differences ann_and_bob unknown_then_known)).
Proof.
  assert (NoDup (user_login <$> ann_and_bob)) as Hnd.
  { apply NoDup_cons. split; [|apply NoDup_singleton].
    intros H%list_elem_of_singleton. discriminate H. }
  assert (["staff"] ≡ₚ elements (dom (group_add_member
            (find_user_differences ann_and_bob unknown_then_known)))) as Hg.
  { assert (elements (dom (group_add_member
              (find_user_differences ann_and_bob unknown_then_known)))
            = ["staff"]) as -> by (vm_compute; reflexivity).
    reflexivity. }
  assert (value (find_group_changes_in no_group_tool ["staff"] ∅)
          = Some {[ "staff" := [] ]}) as Hm by (vm_compute; reflexivity).
  destruct (plan_invariants ann_and_bob unknown_then_known no_group_tool ∅
              ["staff"] {[ "staff" := [] ]} Hg Hm) as [Hu Hsub].
  split; [exact Hnd|]. split; [by apply Hu|exact Hsub].
Defined.

(** C9 (as the specification words it, refuted): the two rows of
    [twice_ann] have the login [ann]; the directory does not know the user
    at the first row and knows the user at the second, and
    [find_user_differences] makes [ann] a key of both [user-add] and
    [user-mod]. *)
Lemma duplicate_login_in_both_dicts :
  user_login <$> twice_ann = ["ann"; "ann"] ∧
  user_add (find_user_differences twice_ann unknown_then_known) !! "ann"
    = Some ["--first=Ann"; "--last=Lee"; "--email="; "--phone=";
            "--mobile="] ∧
  user_mod (find_user_differences twice_ann unknown_then_known) !! "ann"
    = Some ["--first=Anne"] ∧
  elements (dom (user_add
                   (find_user_differences twice_ann unknown_then_known))
            ∩ dom (user_mod
                     (find_user_differences twice_ann unknown_then_known)))
    = ["ann"].
Proof. vm_compute. done. Qed.

(** ** A second run *)

Lemma user_step_reflects ch new old :
  reflects new old → user_step ch (new, old) = ch.
Proof.
  intros (Hp & Hattr & Hgroups).
  assert (changed_attributes new old = []) as Hc.
  { apply changed_attributes_nil. intros key flag Hk.
    by rewrite (Hattr key flag Hk), StrFacts.strip_idemp. }
  assert ((member_of_groups new ∪ DEFAULT_GROUPS)
            ∖ (ipa_groups old ∪ DEFAULT_GROUPS) = ∅) as Hadd by set_solver.
  assert ((ipa_groups old ∪ DEFAULT_GROUPS)
            ∖ (member_of_groups new ∪ DEFAULT_GROUPS) = ∅) as Hrem
    by set_solver.
  unfold user_step. simpl. rewrite Hp, Hc, Hadd, Hrem, elements_empty.
  by destruct ch.
Qed.

Lemma foldl_user_step_reflects ch pairs :
  (∀ new old, (new, old) ∈ pairs → reflects new old) →
  foldl user_step ch pairs = ch.
Proof.
  induction pairs as [|[new old] pairs IH]; intros H; [done|].
  simpl. rewrite user_step_reflects by (apply H; left).
  apply IH. intros new' old' Hin. apply H. by right.
Qed.

(** C3: when [main] runs against a directory in which the entry of every
    user of the batch already carries the stripped import values and the
    imported groups, it starts no command and its plan has five empty
    categories, so that [any(changes.values())] is false. *)
Theorem second_run_has_no_changes (run : list string → outcome)
    (user_show : string → gmap string string)
    (rows : list (csv_entry string)) :
  (∀ new, new ∈ csv_entries_of rows →
     reflects new (fix_ipa_group (user_show (user_login new)))) →
  ∃ plan,
    main_changes run user_show rows = Proc (Some plan) [] ∧
    changes_user_add plan = ∅ ∧ changes_user_mod plan = ∅ ∧
    changes_group_add plan = ∅ ∧ changes_group_add_member plan = ∅ ∧
    changes_group_remove_member plan = ∅ ∧
    no_changes plan = true.
Proof.
  intros H. exists (Changes ∅ ∅ ∅ ∅ ∅). split; [|done].
  unfold main_changes.
  assert (find_user_differences (csv_entries_of rows)
            (ipa_entries_of user_show (csv_entries_of rows))
          = no_differences) as ->.
  { unfold find_user_differences. apply foldl_user_step_reflects.
    intros new old Hin. rewrite ipa_entries_of_fmap in Hin.
    pose proof (zip_fmap_elem _ _ _ _ Hin) as ->.
    apply H. by apply elem_of_zip_l in Hin. }
  done.
Qed.

Lemma second_run_has_no_changes_witness :
  ∃ plan,
    main_changes no_group_tool settled_directory settled_batch
      = Proc (Some plan) [] ∧
    changes_user_add plan = ∅ ∧ changes_user_mod plan = ∅ ∧
    changes_group_add plan = ∅ ∧ changes_group_add_member plan = ∅ ∧
    changes_group_remove_member plan = ∅ ∧
    no_changes plan = true.
Proof.
  apply (second_run_has_no_changes no_group_tool settled_directory
           settled_batch).
  intros new Hin.
  assert (csv_entries_of settled_batch
          = [CsvEntry {[ "staff" ]} "ann" " Ann " "Lee" "" "" ""]) as E
    by (vm_compute; reflexivity).
  rewrite E in Hin. apply list_elem_of_singleton in Hin as ->.
  split; [vm_compute; reflexivity|]. split; [|vm_compute; reflexivity].
  intros key flag Hk. unfold IPA_CMDLINE_MAP in Hk.
  rewrite !elem_of_cons, elem_of_nil in Hk.
  destruct Hk as [Hk|[Hk|[Hk|[Hk|[Hk|[]]]]]]; injection Hk as -> ->;
    vm_compute; reflexivity.
Defined.

(** ** The scenario of the specification *)

(** C6 (as amended): for the row of jdoe, with jdoe unknown to the
    directory, the plan adds jdoe with first=Jane, last=Doe and an empty
    email, and [group-add-member] has exactly the keys [buero] and [team]
    (the u-umlaut becomes [ue]), each listing jdoe; a group whose
    existence check does not exit with 0 gets a [group-add] entry with the
    description [Büro], respectively [Team]. *)
Theorem jdoe_scenario (run : list string → outcome)
    (user_show : string → gmap string string) (phone mobile : string)
    (s1 s2 : Z) :
  user_show "jdoe" = ∅ →
  run (group_show "buero") = Exit s1 →
  run (group_show "team") = Exit s2 →
  ∃ plan,
    value (main_changes run user_show [jdoe_row phone mobile]) = Some plan ∧
    changes_user_add plan !! "jdoe" =
      Some ["--first=Jane"; "--last=Doe"; "--email=";
            assignment "phone" (Str.strip (fix_zero phone));
            assignment "mobile" (Str.strip (fix_zero mobile))] ∧
    changes_group_add_member plan =
      {[ "buero" := ["--users=jdoe"]; "team" := ["--users=jdoe"] ]} ∧
    changes_group_add plan !! "buero" =
      (if bool_decide (s1 ≠ 0%Z) then Some ["--desc=" ++ buero_label]
       else None) ∧
    changes_group_add plan !! "team" =
      (if bool_decide (s2 ≠ 0%Z) then Some ["--desc=Team"] else None).
Proof.
  intros Huser Hb Ht. unfold main_changes.
  assert (ipa_entries_of user_show (csv_entries_of [jdoe_row phone mobile])
          = [fix_ipa_group (user_show "jdoe")]) as -> by reflexivity.
  rewrite Huser.
  assert (find_user_differences (csv_entries_of [jdoe_row phone mobile])
            [fix_ipa_group ∅]
          = Differences ∅
              {[ "jdoe" :=
                   ["--first=Jane"; "--last=Doe"; "--email=";
                    assignment "phone" (Str.strip (fix_zero phone));
                    assignment "mobile" (Str.strip (fix_zero mobile))] ]}
              {[ "buero" := ["--users=jdoe"]; "team" := ["--users=jdoe"] ]}
              ∅) as -> by (vm_compute; reflexivity).
  unfold find_group_changes.
  assert (elements (dom (group_add_member
            (Differences ∅
              {[ "jdoe" :=
                   ["--first=Jane"; "--last=Doe"; "--email=";
                    assignment "phone" (Str.strip (fix_zero phone));
                    assignment "mobile" (Str.strip (fix_zero mobile))] ]}
              {[ "buero" := ["--users=jdoe"]; "team" := ["--users=jdoe"] ]}
              ∅)))
          = ["buero"; "team"]) as -> by (vm_compute; reflexivity).
  simpl for_each. unfold check_group, subprocess_call, mbind, proc_bind.
  rewrite Hb. simpl.
  destruct (bool_decide (s1 ≠ 0%Z)); simpl; rewrite Ht; simpl;
    destruct (bool_decide (s2 ≠ 0%Z)); simpl;
    eexists; (split; [reflexivity|]); simpl;
    (split; [vm_compute; reflexivity|]); (split; [reflexivity|]);
    split; vm_compute; reflexivity.
Qed.

Lemma jdoe_scenario_witness :
  ∃ plan,
    value (main_changes no_group_tool empty_directory [jdoe_row "" ""])
      = Some plan ∧
    changes_user_add plan !! "jdoe" =
      Some ["--first=Jane"; "--last=Doe"; "--email="; "--phone=";
            "--mobile="] ∧
    changes_group_add_member plan =
      {[ "buero" := ["--users=jdoe"]; "team" := ["--users=jdoe"] ]} ∧
    changes_group_add plan !! "buero" = Some ["--desc=" ++ buero_label] ∧
    changes_group_add plan !! "team" = Some ["--desc=Team"].
Proof.
  exact (jdoe_scenario no_group_tool empty_directory "" "" 2 2
           eq_refl eq_refl eq_refl).
Defined.

(** C6 (as the specification words it, refuted): in the plan for the row of
    jdoe neither [group-add-member] nor [group-add] has the key [buro]; the
    keys of [group-add-member] are [buero] and [team]. *)
Lemma no_buro_key :
  (λ plan, (changes_group_add_member plan !! "buro",
            changes_group_add plan !! "buro",
            elements (dom (changes_group_add_member plan))))
    <$> value (main_changes no_group_tool empty_directory [jdoe_row "" ""])
  = Some (None, None, ["buero"; "team"]).
Proof. vm_compute. reflexivity. Qed.


(** * Further properties of the code *)

(** ** The fix-ups of the roster fields *)

Lemma hd_cons_head c l :
  hd "" (Str.cons_head c l) = String c (hd "" l).
Proof. by destruct l. Qed.

Lemma split_hd_spec c s :
  Str.contains c (hd "" (Str.split c s)) = false ∧
  (Str.contains c s = false → hd "" (Str.split c s) = s) ∧
  (Str.contains c s = true →
     ∃ rest, s = hd "" (Str.split c s) ++ String c rest).
Proof.
  induction s as [|d s (IH1 & IH2 & IH3)]; [by repeat split|].
  simpl. destruct (Ascii.eqb_spec d c) as [->|Hne]; simpl.
  - repeat split; [done|]. intros _. by exists s.
  - rewrite hd_cons_head. simpl.
    destruct (Ascii.eqb_spec d c) as [?|_]; [done|]. simpl.
    split; [exact IH1|]. split.
    + intros H. by rewrite IH2.
    + intros H. destruct (IH3 H) as [rest Hrest]. exists rest.
      by rewrite Hrest at 1.
Qed.

(** X2: [fix_csv_emails] keeps the number and the order of the entries and
    changes nothing but the email field; the new email contains no
    semicolon, and it is the old email or the part of it before the first
    semicolon. *)
Theorem fix_csv_emails_first_address {G} (entries : list (csv_entry G)) :
  length (fix_csv_emails entries) = length entries ∧
  ∀ (i : nat) e', fix_csv_emails entries !! i = Some e' →
    ∃ e, entries !! i = Some e ∧
      Str.contains ";" (email_address e') = false ∧
      (email_address e' = email_address e ∨
       ∃ rest, email_address e = email_address e' ++ String ";" rest) ∧
      member_of_groups e' = member_of_groups e ∧
      user_login e' = user_login e ∧
      first_name e' = first_name e ∧ last_name e' = last_name e ∧
      telephone_number e' = telephone_number e ∧
      mobile_telephone_number e' = mobile_telephone_number e.
Proof.
  unfold fix_csv_emails. split; [apply length_fmap|].
  intros i e' H. rewrite list_lookup_fmap in H.
  destruct (entries !! i) as [e|]; [|done]. injection H as <-.
  exists e. split; [done|]. unfold fix_email.
  destruct (split_hd_spec ";" (email_address e)) as (H1 & H2 & H3).
  destruct (Str.contains ";" (email_address e)) eqn:E; simpl.
  - split; [exact H1|]. split; [|done]. right. by apply H3.
  - rewrite E. split; [done|]. split; [by left|done].
Qed.

Lemma fix_csv_emails_first_address_witness :
  ∃ e, [CsvEntry "Staff" "ann" "Ann" "Lee" "a@x.org;b@x.org" "" ""] !! 0
         = Some e ∧
       Str.contains ";" "a@x.org" = false ∧
       ("a@x.org" = email_address e ∨
        ∃ rest, email_address e = "a@x.org" ++ String ";" rest).
Proof.
  destruct (proj2 (fix_csv_emails_first_address
              [CsvEntry "Staff" "ann" "Ann" "Lee" "a@x.org;b@x.org" "" ""])
              0 (CsvEntry "Staff" "ann" "Ann" "Lee" "a@x.org" "" "")
              eq_refl) as (e & He & Hc & Hp & _).
  exists e. done.
Defined.

Lemma fix_zero_spec v :
  Str.strip (fix_zero v) ≠ "0" ∧
  (Str.strip v = "0" ∧ fix_zero v = "" ∨ Str.strip v ≠ "0" ∧ fix_zero v = v).
Proof.
  unfold fix_zero. destruct (String.eqb_spec (Str.strip v) "0") as [E|E].
  - split; [done|]. by left.
  - split; [done|]. by right.
Qed.

Lemma fix_zero_idemp v : fix_zero (fix_zero v) = fix_zero v.
Proof.
  destruct (fix_zero_spec v) as [_ [[_ E]|[_ E]]]; rewrite E;
    [reflexivity|exact E].
Qed.

(** X3: [fix_csv_zero_entries] empties the email and the two phone fields
    whose stripped value is ["0"] and leaves every other field as it is
    (also a name that is ["0"]); afterwards none of the three fields strips
    to ["0"], and a second pass changes nothing. *)
Theorem fix_csv_zero_entries_spec {G} (entries : list (csv_entry G)) :
  fix_csv_zero_entries (fix_csv_zero_entries entries)
    = fix_csv_zero_entries entries ∧
  length (fix_csv_zero_entries entries) = length entries ∧
  ∀ (i : nat) e', fix_csv_zero_entries entries !! i = Some e' →
    ∃ e, entries !! i = Some e ∧
      member_of_groups e' = member_of_groups e ∧
      user_login e' = user_login e ∧
      first_name e' = first_name e ∧ last_name e' = last_name e ∧
      Forall (λ field : csv_entry G → string,
                Str.strip (field e') ≠ "0" ∧
                (Str.strip (field e) = "0" ∧ field e' = "" ∨
                 Str.strip (field e) ≠ "0" ∧ field e' = field e))
             [email_address; telephone_number; mobile_telephone_number].
Proof.
  unfold fix_csv_zero_entries. split; [|split; [apply length_fmap|]].
  - rewrite <-list_fmap_compose. apply list_fmap_ext. intros _ e _.
    unfold fix_zero_entry, compose. simpl. by rewrite !fix_zero_idemp.
  - intros i e' H. rewrite list_lookup_fmap in H.
    destruct (entries !! i) as [e|]; [|done]. injection H as <-.
    exists e. split; [done|]. do 4 (split; [done|]).
    repeat (apply Forall_cons_2; [simpl; apply fix_zero_spec|]).
    apply Forall_nil_2.
Qed.

Lemma fix_csv_zero_entries_spec_witness :
  ∃ e, [CsvEntry "Staff" "0" "0" "Lee" " 0 " "0123" ""] !! 0 = Some e ∧
       first_name (CsvEntry "Staff" "0" "0" "Lee" "" "0123" "")
         = first_name e.
Proof.
  destruct (proj2 (proj2 (fix_csv_zero_entries_spec
              [CsvEntry "Staff" "0" "0" "Lee" " 0 " "0123" ""]))
              0 (CsvEntry "Staff" "0" "0" "Lee" "" "0123" "") eq_refl)
    as (e & He & _ & _ & Hf & _).
  exists e. done.
Defined.

(** X4: The entries that [main] hands to [find_user_differences] are the rows
    in their order, login by login; in each of them the email holds no
    semicolon, neither the email nor a phone field strips to ["0"], and the
    empty string is not among the groups. *)
Theorem csv_entries_of_normal (rows : list (csv_entry string)) :
  user_login <$> csv_entries_of rows = user_login <$> rows ∧
  ∀ e, e ∈ csv_entries_of rows →
    Str.contains ";" (email_address e) = false ∧
    Str.strip (email_address e) ≠ "0" ∧
    Str.strip (telephone_number e) ≠ "0" ∧
    Str.strip (mobile_telephone_number e) ≠ "0" ∧
    "" ∉ member_of_groups e.
Proof.
  unfold csv_entries_of, fix_csv_zero_entries, fix_csv_emails,
    fix_csv_group_names.
  rewrite fix_csv_group_names_from_entries. split.
  - rewrite <-!list_fmap_compose. apply list_fmap_ext. intros _ row _.
    unfold compose, fix_email. simpl. by destruct (Str.contains _ _).
  - intros e (e1 & -> & (e2 & -> & (row & -> & _)%list_elem_of_fmap)
                          %list_elem_of_fmap)%list_elem_of_fmap.
    pose proof (split_hd_spec ";" (email_address row)) as (H1 & _ & _).
    unfold fix_zero_entry. simpl.
    split; [|repeat split; try apply fix_zero_spec].
    + unfold fix_email. simpl.
      destruct (Str.contains ";" (email_address row)) eqn:E; simpl.
      * destruct (fix_zero_spec (hd "" (Str.split ";" (email_address row))))
          as [_ [[_ ->]|[_ ->]]]; done.
      * destruct (fix_zero_spec (email_address row))
          as [_ [[_ ->]|[_ ->]]]; done.
    + unfold fix_email. simpl.
      destruct (Str.contains ";" (email_address row)); simpl.
      all: rewrite elem_of_list_to_set, list_elem_of_filter; by intros [? _].
Qed.

Lemma csv_entries_of_normal_witness :
  Str.strip (email_address
               (CsvEntry ({[ "staff" ]} : gset string)
                         "ann" " Ann " "Lee" "" "" "")) ≠ "0".
Proof.
  apply (proj2 (csv_entries_of_normal settled_batch)
           (CsvEntry {[ "staff" ]} "ann" " Ann " "Lee" "" "" "")).
  assert (csv_entries_of settled_batch
          = [CsvEntry {[ "staff" ]} "ann" " Ann " "Lee" "" "" ""]) as ->
    by (vm_compute; reflexivity).
  left.
Defined.

(** ** The canonical group ids *)

Lemma all_chars_app p s1 s2 :
  all_chars p (s1 ++ s2) = all_chars p s1 && all_chars p s2.
Proof.
  induction s1 as [|c s1 IH]; [done|]. simpl. rewrite IH.
  by rewrite andb_assoc.
Qed.

Lemma all_chars_expand (P Q : ascii → bool) f s :
  (∀ d, P d = true → all_chars Q (f d) = true) →
  all_chars P s = true → all_chars Q (Str.expand f s) = true.
Proof.
  intros Hf. induction s as [|c s IH]; [done|]. simpl.
  intros [Hc Hs]%andb_true_iff.
  rewrite all_chars_app, (Hf c Hc). by apply IH.
Qed.

Lemma all_chars_keep (p P : ascii → bool) s :
  all_chars P s = true →
  all_chars (λ c, p c && P c) (Str.keep p s) = true.
Proof.
  induction s as [|c s IH]; [done|]. simpl.
  intros [Hc Hs]%andb_true_iff.
  destruct (p c) eqn:E; simpl; [|by apply IH].
  rewrite E, Hc. by apply IH.
Qed.

Lemma all_chars_weaken (P Q : ascii → bool) s :
  (∀ c, P c = true → Q c = true) →
  all_chars P s = true → all_chars Q s = true.
Proof.
  intros H. induction s as [|c s IH]; [done|]. simpl.
  intros [Hc Hs]%andb_true_iff. rewrite (H c Hc). by apply IH.
Qed.

Lemma all_chars_true s : all_chars (λ _, true) s = true.
Proof. by induction s. Qed.

(** Statements of the form [premise d = true → conclusion d = true] on
    all 256 characters. *)
Ltac each_char_implies d :=
  destruct d as [[] [] [] [] [] [] [] []]; vm_compute;
  first [reflexivity | intros H; first [reflexivity | discriminate H]].

Lemma lower_char_lowered d :
  all_chars is_lowered (String (Str.lower_char d) EmptyString) = true.
Proof. destruct d as [[] [] [] [] [] [] [] []]; vm_compute; reflexivity. Qed.

Lemma replace_a_uml_lowered d :
  is_lowered d = true →
  all_chars is_lowered
    (if Ascii.eqb d Str.a_uml then "ae" else String d EmptyString) = true.
Proof. each_char_implies d. Qed.

Lemma replace_o_uml_lowered d :
  is_lowered d = true →
  all_chars is_lowered
    (if Ascii.eqb d Str.o_uml then "oe" else String d EmptyString) = true.
Proof. each_char_implies d. Qed.

Lemma replace_u_uml_lowered d :
  is_lowered d = true →
  all_chars is_lowered
    (if Ascii.eqb d Str.u_uml then "ue" else String d EmptyString) = true.
Proof. each_char_implies d. Qed.

Lemma nfkd_ascii_char_lowered d :
  is_lowered d = true → all_chars is_lowered (Str.nfkd_ascii_char d) = true.
Proof. each_char_implies d. Qed.

Lemma kept_lowered_char d :
  groupname_char d && is_lowered d = true →
  id_char d || Ascii.eqb d "/" = true.
Proof. each_char_implies d. Qed.

Lemma group_name_chars raw :
  all_chars (λ c, id_char c || Ascii.eqb c "/") (group_name raw) = true.
Proof.
  unfold group_name, Str.nfkd_ascii, replace_umlauts, Str.replace, Str.lower.
  apply (all_chars_weaken (λ c, groupname_char c && is_lowered c));
    [apply kept_lowered_char|].
  apply all_chars_keep.
  apply (all_chars_expand is_lowered); [apply nfkd_ascii_char_lowered|].
  apply (all_chars_expand is_lowered); [apply replace_u_uml_lowered|].
  apply (all_chars_expand is_lowered); [apply replace_o_uml_lowered|].
  apply (all_chars_expand is_lowered); [apply replace_a_uml_lowered|].
  apply (all_chars_expand (λ _, true));
    [intros d _; apply lower_char_lowered|].
  apply all_chars_true.
Qed.

Lemma split_all_chars (q : ascii → bool) sep s w :
  all_chars (λ c, q c || Ascii.eqb c sep) s = true →
  w ∈ Str.split sep s → all_chars q w = true.
Proof.
  revert w. induction s as [|c s IH]; intros w.
  { simpl. by intros _ ->%list_elem_of_singleton. }
  simpl. intros [Hc Hs]%andb_true_iff.
  destruct (Ascii.eqb c sep) eqn:E.
  - intros [->|Hw]%elem_of_cons; [done|]. by apply IH.
  - rewrite orb_false_r in Hc.
    destruct (Str.split sep s) as [|w0 ws] eqn:Hsplit; simpl.
    + intros ->%list_elem_of_singleton. simpl. by rewrite Hc.
    + intros [->|Hw]%elem_of_cons.
      * simpl. rewrite Hc. apply IH; [done|left].
      * apply IH; [done|by right].
Qed.

(** *** Normalising a canonical id again *)

Lemma lstrip_none p s :
  all_chars (λ c, negb (p c)) s = true → Str.lstrip p s = s.
Proof.
  destruct s as [|c s]; [done|]. simpl.
  intros [Hc _]%andb_true_iff. apply negb_true_iff in Hc. by rewrite Hc.
Qed.

Lemma rstrip_none p s :
  all_chars (λ c, negb (p c)) s = true → Str.rstrip p s = s.
Proof.
  induction s as [|c s IH]; [done|]. simpl.
  intros [Hc Hs]%andb_true_iff. apply negb_true_iff in Hc.
  rewrite (IH Hs), Hc. by destruct s.
Qed.

Lemma join_words_none s :
  all_chars (λ c, negb (Str.is_space c)) s = true →
  Str.join "_" (Str.words s) = s.
Proof.
  induction s as [|c s IH]; [done|]. simpl.
  intros [Hc Hs]%andb_true_iff. apply negb_true_iff in Hc. rewrite Hc.
  specialize (IH Hs). destruct s as [|d s]; [done|].
  assert (Str.starts_word (String d s) = true) as Hw.
  { simpl in Hs. apply andb_true_iff in Hs as [Hd _]. exact Hd. }
  rewrite Hw.
  rewrite StrFacts.join_cons_head by by apply StrFacts.words_starts_word.
  by rewrite IH.
Qed.

Lemma expand_same (P : ascii → bool) f s :
  (∀ d, P d = true → f d = String d EmptyString) →
  all_chars P s = true → Str.expand f s = s.
Proof.
  intros Hf. induction s as [|c s IH]; [done|]. simpl.
  intros [Hc Hs]%andb_true_iff. by rewrite (Hf c Hc), IH.
Qed.

Lemma keep_same (p P : ascii → bool) s :
  (∀ d, P d = true → p d = true) →
  all_chars P s = true → Str.keep p s = s.
Proof.
  intros Hp. induction s as [|c s IH]; [done|]. simpl.
  intros [Hc Hs]%andb_true_iff. by rewrite (Hp c Hc), IH.
Qed.

Lemma split_none sep s :
  all_chars (λ c, negb (Ascii.eqb c sep)) s = true → Str.split sep s = [s].
Proof.
  induction s as [|c s IH]; [done|]. simpl.
  intros [Hc Hs]%andb_true_iff. apply negb_true_iff in Hc.
  by rewrite Hc, (IH Hs).
Qed.

Lemma id_char_not_stripped d : id_char d = true → negb (strip_sep d) = true.
Proof. each_char_implies d. Qed.

Lemma id_char_not_space d : id_char d = true → negb (Str.is_space d) = true.
Proof. each_char_implies d. Qed.

Lemma id_char_not_sep d : id_char d = true → negb (Ascii.eqb d "/") = true.
Proof. each_char_implies d. Qed.

Lemma id_char_kept d : id_char d = true → groupname_char d = true.
Proof. each_char_implies d. Qed.

Lemma id_char_lower d :
  id_char d = true →
  String (Str.lower_char d) EmptyString = String d EmptyString.
Proof.
  destruct d as [[] [] [] [] [] [] [] []]; vm_compute;
    first [reflexivity | intros H; discriminate H].
Qed.

Lemma id_char_no_a_uml d :
  id_char d = true →
  (if Ascii.eqb d Str.a_uml then "ae" else String d EmptyString)
    = String d EmptyString.
Proof.
  destruct d as [[] [] [] [] [] [] [] []]; vm_compute;
    first [reflexivity | intros H; discriminate H].
Qed.

Lemma id_char_no_o_uml d :
  id_char d = true →
  (if Ascii.eqb d Str.o_uml then "oe" else String d EmptyString)
    = String d EmptyString.
Proof.
  destruct d as [[] [] [] [] [] [] [] []]; vm_compute;
    first [reflexivity | intros H; discriminate H].
Qed.

Lemma id_char_no_u_uml d :
  id_char d = true →
  (if Ascii.eqb d Str.u_uml then "ue" else String d EmptyString)
    = String d EmptyString.
Proof.
  destruct d as [[] [] [] [] [] [] [] []]; vm_compute;
    first [reflexivity | intros H; discriminate H].
Qed.

Lemma id_char_nfkd d :
  id_char d = true → Str.nfkd_ascii_char d = String d EmptyString.
Proof.
  destruct d as [[] [] [] [] [] [] [] []]; vm_compute;
    first [reflexivity | intros H; discriminate H].
Qed.

Lemma group_names_of_id id :
  all_chars id_char id = true → group_names id = [id].
Proof.
  intros Hid. unfold group_names, group_name, original_group_name,
    Str.strip_with, Str.nfkd_ascii, replace_umlauts, Str.replace, Str.lower.
  rewrite lstrip_none
    by (eapply all_chars_weaken; [apply id_char_not_stripped|done]).
  rewrite rstrip_none
    by (eapply all_chars_weaken; [apply id_char_not_stripped|done]).
  rewrite join_words_none
    by (eapply all_chars_weaken; [apply id_char_not_space|done]).
  rewrite (expand_same id_char _ id id_char_lower Hid).
  rewrite (expand_same id_char _ id id_char_no_a_uml Hid).
  rewrite (expand_same id_char _ id id_char_no_o_uml Hid).
  rewrite (expand_same id_char _ id id_char_no_u_uml Hid).
  rewrite (expand_same id_char _ id id_char_nfkd Hid).
  rewrite (keep_same _ id_char id id_char_kept Hid).
  apply split_none.
  eapply all_chars_weaken; [apply id_char_not_sep|done].
Qed.

(** X5: Every segment that the normalisation of a group field yields, and so
    every group id of an entry, consists of lowercase ASCII letters,
    digits, underscores and hyphens only; the ids of an entry are not
    empty.  Normalising such a segment again gives the segment itself. *)
Theorem group_ids_are_canonical (raw id : string) :
  id ∈ group_names raw →
  all_chars id_char id = true ∧
  group_names id = [id] ∧
  ∀ rows entry,
    entry ∈ (fix_csv_group_names rows).1 → id ∈ member_of_groups entry →
    id ≠ "".
Proof.
  intros Hin.
  assert (all_chars id_char id = true) as Hid.
  { eapply split_all_chars; [|exact Hin]. apply group_name_chars. }
  split; [exact Hid|]. split; [by apply group_names_of_id|].
  intros rows entry He Hide. unfold fix_csv_group_names in He.
  rewrite fix_csv_group_names_from_entries in He.
  apply list_elem_of_fmap in He as (row & -> & _). simpl in Hide.
  apply elem_of_list_to_set, list_elem_of_filter in Hide as [Hne _].
  by destruct id.
Qed.

Lemma group_ids_are_canonical_witness :
  "buero" ∈ group_names (buero_label ++ "/Team") ∧
  all_chars id_char "buero" = true ∧ group_names "buero" = ["buero"].
Proof.
  assert ("buero" ∈ group_names (buero_label ++ "/Team")) as H
    by (vm_compute; left).
  split; [exact H|].
  destruct (group_ids_are_canonical _ _ H) as (H1 & H2 & _). by split.
Defined.

(** ** Labels and descriptions *)

Lemma label_of_group_id (rows : list (csv_entry string))
    (entry : csv_entry (gset string)) (id : string) :
  entry ∈ (fix_csv_group_names rows).1 → id ∈ member_of_groups entry →
  ∃ row label,
    row ∈ rows ∧
    (id, label) ∈ description_pairs (member_of_groups row) ∧
    label ∈ Str.split GROUP_SEP (original_group_name (member_of_groups row)) ∧
    (fix_csv_group_names rows).2 !! id = Some label.
Proof.
  intros He Hid.
  assert (id ≠ "") as Hne.
  { unfold fix_csv_group_names in He.
    rewrite fix_csv_group_names_from_entries in He.
    apply list_elem_of_fmap in He as (row & -> & _). simpl in Hid.
    apply elem_of_list_to_set, list_elem_of_filter in Hid as [? _].
    by destruct id. }
  assert (id ∈ dom (fix_csv_group_names rows).2) as Hdom.
  { apply catalogue_keys_nonempty; [done|]. by exists entry. }
  apply elem_of_dom in Hdom as [label Hlabel].
  unfold fix_csv_group_names in Hlabel.
  rewrite fix_csv_group_names_from_descriptions, dict_update_lookup in Hlabel.
  destruct (last _) as [[k v]|] eqn:Hlast;
    [|by rewrite lookup_empty in Hlabel].
  injection Hlabel as <-.
  apply last_Some in Hlast as [l' Hl'].
  assert ((k, v) ∈ filter (λ kv : string * string, kv.1 = id)
            (mjoin ((λ row, description_pairs (member_of_groups row))
                      <$> rows))) as Hin.
  { rewrite Hl'. apply elem_of_app. right. left. }
  apply list_elem_of_filter in Hin as [Hk Hin]. simpl in Hk. subst k.
  apply list_elem_of_join in Hin as (l & Hl & (row & -> & Hrow)%list_elem_of_fmap).
  exists row, v. split; [done|]. split; [done|]. split.
  - by apply elem_of_zip_r in Hl.
  - unfold fix_csv_group_names.
    rewrite fix_csv_group_names_from_descriptions, dict_update_lookup.
    rewrite Hl', last_snoc. done.
Qed.

(** X8: The catalogue holds a label for every group id of every entry, and
    this label is the original segment that stands, in some row, at the
    position of a segment normalised to that id. *)
Theorem catalogue_label_is_original (rows : list (csv_entry string))
    (entry : csv_entry (gset string)) (id : string) :
  entry ∈ (fix_csv_group_names rows).1 → id ∈ member_of_groups entry →
  ∃ row label,
    row ∈ rows ∧
    (id, label) ∈ description_pairs (member_of_groups row) ∧
    label ∈ Str.split GROUP_SEP (original_group_name (member_of_groups row)) ∧
    (fix_csv_group_names rows).2 !! id = Some label.
Proof. apply label_of_group_id. Qed.

Lemma catalogue_label_is_original_witness :
  ∃ row label,
    row ∈ punctuation_batch ∧
    (fix_csv_group_names punctuation_batch).2 !! "team" = Some label.
Proof.
  destruct (catalogue_label_is_original punctuation_batch
              (CsvEntry {[ "team" ]} "ann" "Ann" "Lee" "" "" "") "team")
    as (row & label & Hrow & _ & _ & Hl).
  - assert ((fix_csv_group_names punctuation_batch).1
            = [CsvEntry {[ "team" ]} "ann" "Ann" "Lee" "" "" ""]) as ->
      by (vm_compute; reflexivity).
    left.
  - vm_compute. reflexivity.
  - by exists row, label.
Defined.

Lemma csv_entries_of_groups rows new :
  new ∈ csv_entries_of rows →
  ∃ entry, entry ∈ (fix_csv_group_names rows).1 ∧
           member_of_groups entry = member_of_groups new.
Proof.
  unfold csv_entries_of, fix_csv_zero_entries, fix_csv_emails.
  intros (e1 & -> & (e2 & -> & He)%list_elem_of_fmap)%list_elem_of_fmap.
  exists e2. split; [done|].
  unfold fix_zero_entry, fix_email. simpl. by destruct (Str.contains _ _).
Qed.

Lemma group_add_member_key csv ipa g :
  is_Some (group_add_member (find_user_differences csv ipa) !! g) →
  ∃ new old, (new, old) ∈ zip csv ipa ∧ g ∈ groups_to_add new old.
Proof.
  unfold find_user_differences.
  rewrite foldl_user_step_group_add_member. simpl. rewrite extend_None.
  unfold members_of.
  destruct (filter _ (zip csv ipa)) as [|[new old] l] eqn:E.
  { by intros [? ?]. }
  intros _. exists new, old.
  assert ((new, old) ∈ filter (λ p, g ∈ groups_to_add p.1 p.2) (zip csv ipa))
    as Hin by (rewrite E; left).
  apply list_elem_of_filter in Hin as [? ?]. done.
Qed.

(** X16: In a plan that [main] builds, every entry of [group-add] consists of
    exactly one [--desc=] argument, whose label is the one the catalogue
    holds for the group, and the existence check of the group exited with
    a status other than 0. *)
Theorem group_add_has_description (run : list string → outcome)
    (user_show : string → gmap string string)
    (rows : list (csv_entry string)) (plan : changes)
    (group : string) (args : list string) :
  value (main_changes run user_show rows) = Some plan →
  changes_group_add plan !! group = Some args →
  ∃ label status,
    (fix_csv_group_names rows).2 !! group = Some label ∧
    args = ["--desc=" ++ label] ∧
    run (group_show group) = Exit status ∧ status ≠ 0%Z.
Proof.
  intros (m & Hm & ->)%main_changes_value. simpl. intros Hargs.
  rewrite (find_group_changes_lookup _ _ _ _ group Hm) in Hargs.
  destruct (run (group_show group)) as [status|]; [|done].
  destruct (decide _) as [[Hin Hs]|]; [|done]. injection Hargs as <-.
  apply elem_of_dom, group_add_member_key in Hin
    as (new & old & Hpair & Hg).
  apply elem_of_zip_l, csv_entries_of_groups in Hpair
    as (entry & He & Hgroups).
  assert (group ∈ member_of_groups entry) as Hge.
  { rewrite Hgroups. unfold groups_to_add in Hg. set_solver. }
  destruct (label_of_group_id rows entry group He Hge)
    as (_ & label & _ & _ & _ & Hl).
  exists label, status. unfold description_args. by rewrite Hl.
Qed.

Lemma group_add_has_description_witness :
  ∃ label status,
    (fix_csv_group_names punctuation_batch).2 !! "team" = Some label ∧
    ["--desc=Team"] = ["--desc=" ++ label] ∧
    no_group_tool (group_show "team") = Exit status ∧ status ≠ 0%Z.
Proof.
  apply (group_add_has_description no_group_tool empty_directory
           punctuation_batch punctuation_plan "team" ["--desc=Team"]);
    vm_compute; reflexivity.
Defined.

(** ** The groups that the directory reports *)

Lemma split2_none a b s :
  has_pair a b s = false → Str.split2 a b s = [s].
Proof.
  induction s as [|c s IH]; [done|]. simpl.
  intros [Hh Hs]%orb_false_iff. rewrite (IH Hs).
  destruct s as [|d s]; [done|]. by rewrite Hh.
Qed.

Lemma split2_app a b w s :
  a ≠ b → has_pair a b w = false →
  Str.split2 a b (w ++ String a (String b s)) = w :: Str.split2 a b s.
Proof.
  intros Hab.
  assert (Ascii.eqb a b = false) as Hab' by by apply Ascii.eqb_neq.
  induction w as [|c w IH].
  { intros _. simpl. by rewrite !Ascii.eqb_refl. }
  intros [Hh Hs]%orb_false_iff. specialize (IH Hs).
  destruct w as [|d w].
  - simpl. rewrite !Ascii.eqb_refl, Hab', andb_false_r. done.
  - change ((String c (String d w)) ++ String a (String b s))
      with (String c (String d (w ++ String a (String b s)))).
    change (String d w ++ String a (String b s))
      with (String d (w ++ String a (String b s))) in IH.
    cbn [Str.split2]. rewrite Hh. cbn [Str.split2] in IH.
    by rewrite IH.
Qed.

Lemma split2_join names :
  Forall (λ n, has_pair "," " " n = false) names → names ≠ [] →
  Str.split2 "," " " (Str.join ", " names) = names.
Proof.
  induction names as [|w names IH]; [done|].
  intros [Hw Hn]%Forall_cons _. destruct names as [|w' names].
  - simpl. by apply split2_none.
  - change (Str.join ", " (w :: w' :: names))
      with (w ++ String "," (String " " (Str.join ", " (w' :: names)))).
    rewrite split2_app by done. by rewrite IH.
Qed.

(** X10: [fix_ipa_groups] keeps an entry known or unknown as it was, leaves the
    text fields other than [member_of_groups] alone, and never puts the
    empty string among the groups.  When the directory reports the groups
    as names joined by a comma and a space, none of which contains a comma
    followed by a space, the set of the entry holds exactly the names that
    are not empty. *)
Theorem fix_ipa_groups_spec (entry : gmap string string) :
  (present (fix_ipa_group entry) = true ↔ entry ≠ ∅) ∧
  (∀ key, key ≠ "member_of_groups" →
     ipa_get (fix_ipa_group entry) key = default "" (entry !! key)) ∧
  ("" ∉ ipa_groups (fix_ipa_group entry)) ∧
  (∀ names,
     entry !! "member_of_groups" = Some (Str.join ", " names) →
     Forall (λ n, has_pair "," " " n = false) names →
     ∀ g, g ∈ ipa_groups (fix_ipa_group entry) ↔ g ∈ names ∧ g ≠ "").
Proof.
  unfold present, ipa_get, ipa_groups, fix_ipa_group. simpl.
  split; [|split; [|split]].
  - rewrite orb_true_iff, negb_true_iff, bool_decide_eq_false,
      bool_decide_eq_true, fmap_is_Some.
    split.
    + intros [H|[v Hv]] ->; [by rewrite delete_empty in H|].
      by rewrite lookup_empty in Hv.
    + intros Hne. destruct (entry !! "member_of_groups") as [v|] eqn:E;
        [right; by eexists|].
      left. by rewrite delete_id.
  - intros key Hkey. by rewrite lookup_delete_ne.
  - destruct (entry !! "member_of_groups"); simpl; [|set_solver].
    rewrite elem_of_list_to_set, list_elem_of_filter. by intros [? _].
  - intros names -> Hnames g. simpl.
    rewrite elem_of_list_to_set, list_elem_of_filter.
    destruct names as [|w names].
    + simpl. split.
      * intros [Hne ->%list_elem_of_singleton]. done.
      * intros [[]%elem_of_nil _].
    + rewrite split2_join by done. split.
      * intros [Hne Hin]. split; [done|]. intros ->. done.
      * intros [Hin Hne]. split; [by destruct g|done].
Qed.

Lemma fix_ipa_groups_spec_witness :
  "staff" ∈ ipa_groups (fix_ipa_group (settled_directory "ann")) ∧
  ipa_get (fix_ipa_group (settled_directory "ann")) "first_name" = "Ann".
Proof.
  destruct (fix_ipa_groups_spec (settled_directory "ann"))
    as (_ & Hget & _ & Hnames).
  split.
  - apply (Hnames ["staff"; "ipausers"]).
    + vm_compute. reflexivity.
    + repeat (apply Forall_cons_2; [reflexivity|]). apply Forall_nil_2.
    + split; [left|done].
  - rewrite Hget by done. vm_compute. reflexivity.
Defined.

(** ** What one user contributes to the plan *)

Lemma foldl_user_step_user_add_other ch pairs user :
  (∀ p, p ∈ pairs → user_login p.1 ≠ user) →
  user_add (foldl user_step ch pairs) !! user = user_add ch !! user.
Proof.
  revert ch. induction pairs as [|[new old] pairs IH]; intros ch H; [done|].
  simpl. rewrite IH by (intros p Hp; apply H; by right).
  rewrite user_step_user_add. destruct (present old); [done|].
  apply lookup_insert_ne. apply (H (new, old)). left.
Qed.

Lemma foldl_user_step_user_mod_other ch pairs user :
  (∀ p, p ∈ pairs → user_login p.1 ≠ user) →
  user_mod (foldl user_step ch pairs) !! user = user_mod ch !! user.
Proof.
  revert ch. induction pairs as [|[new old] pairs IH]; intros ch H; [done|].
  simpl. rewrite IH by (intros p Hp; apply H; by right).
  rewrite user_step_user_mod. destruct (present old); [|done].
  destruct (changed_attributes new old); [done|].
  apply lookup_insert_ne. apply (H (new, old)). left.
Qed.

Lemma foldl_user_step_unique ch pairs new old :
  NoDup ((λ p, user_login p.1) <$> pairs) → (new, old) ∈ pairs →
  user_add ch !! user_login new = None →
  user_mod ch !! user_login new = None →
  user_add (foldl user_step ch pairs) !! user_login new
    = (if present old then None else Some (all_attributes new)) ∧
  user_mod (foldl user_step ch pairs) !! user_login new
    = (if present old then entry_of (changed_attributes new old) else None).
Proof.
  revert ch. induction pairs as [|[new' old'] pairs IH]; intros ch Hnd Hin Ha Hm.
  { by apply elem_of_nil in Hin. }
  rewrite fmap_cons in Hnd. apply NoDup_cons in Hnd as [Hfresh Hnd]. simpl in *.
  apply elem_of_cons in Hin as [[= <- <-]|Hin].
  - rewrite foldl_user_step_user_add_other, foldl_user_step_user_mod_other.
    + rewrite user_step_user_add, user_step_user_mod.
      destruct (present old); [|by rewrite lookup_insert_eq].
      split; [done|].
      destruct (changed_attributes new old); [done|].
      apply lookup_insert_eq.
    + intros p Hp Heq. apply Hfresh, list_elem_of_fmap. by exists p.
    + intros p Hp Heq. apply Hfresh, list_elem_of_fmap. by exists p.
  - assert (user_login new' ≠ user_login new) as Hne.
    { intros Heq. apply Hfresh, list_elem_of_fmap. by exists (new, old). }
    apply IH; [done..| |].
    + rewrite user_step_user_add. destruct (present old'); [done|].
      by rewrite lookup_insert_ne.
    + rewrite user_step_user_mod. destruct (present old'); [|done].
      destruct (changed_attributes new' old'); [done|].
      by rewrite lookup_insert_ne.
Qed.

(** X12: When the logins of the batch are all different, the plan holds for
    every pair exactly what the pair asks for: a user unknown to the
    directory has a [user-add] entry with the assignments of all five
    tracked fields (empty values included) and no [user-mod] entry; a known
    user has no [user-add] entry, and a [user-mod] entry with the
    assignments of the differing fields or, when nothing differs, none. *)
Theorem unique_logins_user_entries
    (csv_entries : list (csv_entry (gset string)))
    (ipa_entries : list ipa_entry)
    (new : csv_entry (gset string)) (old : ipa_entry) :
  NoDup (user_login <$> csv_entries) →
  (new, old) ∈ zip csv_entries ipa_entries →
  let d := find_user_differences csv_entries ipa_entries in
  user_add d !! user_login new =
    (if present old then None
     else Some [ assignment "first" (Str.strip (first_name new));
                 assignment "last" (Str.strip (last_name new));
                 assignment "email" (Str.strip (email_address new));
                 assignment "phone" (Str.strip (telephone_number new));
                 assignment "mobile"
                   (Str.strip (mobile_telephone_number new)) ]) ∧
  user_mod d !! user_login new =
    (if present old
     then entry_of
            ((λ kc, assignment kc.2 (Str.strip (csv_get new kc.1)))
               <$> filter (λ kc, Str.strip (csv_get new kc.1)
                                   ≠ Str.strip (ipa_get old kc.1))
                          IPA_CMDLINE_MAP)
     else None).
Proof.
  intros Hnd Hin d. unfold d, find_user_differences.
  by apply foldl_user_step_unique; [apply zip_logins_NoDup|..].
Qed.

Lemma unique_logins_user_entries_witness :
  user_add (find_user_differences [renamed_new] [staff_old]) !! "ann" = None ∧
  user_mod (find_user_differences [renamed_new] [staff_old]) !! "ann"
    = Some ["--first=Anne"].
Proof.
  assert (NoDup (user_login <$> [renamed_new])) as Hnd.
  { apply NoDup_singleton. }
  assert ((renamed_new, staff_old) ∈ zip [renamed_new] [staff_old]) as Hin.
  { left. }
  exact (unique_logins_user_entries [renamed_new] [staff_old]
           renamed_new staff_old Hnd Hin).
Defined.

(** *** Memberships of one user *)

Lemma users_arg_inj u1 u2 : users_arg u1 = users_arg u2 → u1 = u2.
Proof. unfold users_arg. simpl. by intros [= ?]. Qed.

Lemma members_of_elem sel g pairs new old :
  NoDup ((λ p, user_login p.1) <$> pairs) → (new, old) ∈ pairs →
  users_arg (user_login new) ∈ members_of sel g pairs ↔ g ∈ sel new old.
Proof.
  intros Hnd Hin. unfold members_of. rewrite list_elem_of_fmap. split.
  - intros (p & Heq%users_arg_inj & [Hg Hp]%list_elem_of_filter).
    assert ((new, old) = p) as <-; [|done].
    by apply (NoDup_fmap_elem (λ p, user_login p.1) pairs).
  - intros Hg. exists (new, old). split; [done|].
    by apply list_elem_of_filter.
Qed.

Lemma default_entry_of l : default [] (entry_of l) = l.
Proof. by destruct l. Qed.

(** X13: When the logins of the batch are all different, a user is listed
    under a group of [group-add-member] exactly when the group is in
    (import groups ∪ default groups) − (directory groups ∪ default groups)
    of the pair, and under a group of [group-remove-member] exactly when it
    is in the opposite difference; so no user is both added to and removed
    from a group. *)
Theorem unique_logins_memberships
    (csv_entries : list (csv_entry (gset string)))
    (ipa_entries : list ipa_entry)
    (new : csv_entry (gset string)) (old : ipa_entry) (group : string) :
  NoDup (user_login <$> csv_entries) →
  (new, old) ∈ zip csv_entries ipa_entries →
  let d := find_user_differences csv_entries ipa_entries in
  let added := default [] (group_add_member d !! group) in
  let removed := default [] (group_remove_member d !! group) in
  (users_arg (user_login new) ∈ added ↔
     group ∈ (member_of_groups new ∪ DEFAULT_GROUPS)
               ∖ (ipa_groups old ∪ DEFAULT_GROUPS)) ∧
  (users_arg (user_login new) ∈ removed ↔
     group ∈ (ipa_groups old ∪ DEFAULT_GROUPS)
               ∖ (member_of_groups new ∪ DEFAULT_GROUPS)) ∧
  ¬ (users_arg (user_login new) ∈ added ∧
     users_arg (user_login new) ∈ removed).
Proof.
  intros Hnd Hin d added removed.
  apply (zip_logins_NoDup _ ipa_entries) in Hnd.
  assert (users_arg (user_login new) ∈ added ↔ group ∈ groups_to_add new old)
    as Ha.
  { unfold added, d, find_user_differences.
    rewrite foldl_user_step_group_add_member. simpl.
    rewrite extend_None, default_entry_of. by apply members_of_elem. }
  assert (users_arg (user_login new) ∈ removed
            ↔ group ∈ groups_to_remove new old) as Hr.
  { unfold removed, d, find_user_differences.
    rewrite foldl_user_step_group_remove_member. simpl.
    rewrite extend_None, default_entry_of. by apply members_of_elem. }
  split; [exact Ha|]. split; [exact Hr|].
  rewrite Ha, Hr. unfold groups_to_add, groups_to_remove. set_solver.
Qed.

Lemma unique_logins_memberships_witness :
  ¬ (users_arg "ann"
       ∈ default [] (group_add_member
                       (find_user_differences [staff_new] [staff_old])
                       !! "staff") ∧
     users_arg "ann"
       ∈ default [] (group_remove_member
                       (find_user_differences [staff_new] [staff_old])
                       !! "staff")).
Proof.
  assert (NoDup (user_login <$> [staff_new])) as Hnd.
  { apply NoDup_singleton. }
  assert ((staff_new, staff_old) ∈ zip [staff_new] [staff_old]) as Hin.
  { left. }
  exact (proj2 (proj2 (unique_logins_memberships [staff_new] [staff_old]
                         staff_new staff_old "staff" Hnd Hin))).
Defined.

(** X14: A user that the directory does not know is removed from no group and
    joins exactly the imported groups that are not default groups. *)
Theorem unknown_user_memberships (changes : differences)
    (new : csv_entry (gset string)) (old : ipa_entry) :
  present old = false →
  group_remove_member (user_step changes (new, old))
    = group_remove_member changes ∧
  ∀ group,
    group_add_member (user_step changes (new, old)) !! group =
      if decide (group ∈ member_of_groups new ∧ group ∉ DEFAULT_GROUPS)
      then Some (default [] (group_add_member changes !! group)
                 ++ [users_arg (user_login new)])%list
      else group_add_member changes !! group.
Proof.
  intros Hp. unfold present in Hp.
  apply orb_false_iff in Hp as [_ Hg]. apply bool_decide_eq_false in Hg.
  assert (ipa_groups old = ∅) as Hempty.
  { unfold ipa_groups. destruct (ipa_member_of_groups old); [|done].
    exfalso. apply Hg. by eexists. }
  split.
  - apply map_eq. intros g. rewrite user_step_group_remove_member.
    rewrite decide_False; [done|].
    unfold groups_to_remove. rewrite Hempty. set_solver.
  - intros g. rewrite user_step_group_add_member.
    unfold groups_to_add. rewrite Hempty.
    destruct (decide (g ∈ member_of_groups new ∧ g ∉ DEFAULT_GROUPS))
      as [[? ?]|Hn].
    + rewrite decide_True; [done|]. set_solver.
    + rewrite decide_False; [done|]. set_solver.
Qed.

Lemma unknown_user_memberships_witness :
  group_remove_member
    (user_step no_differences (staff_new, IpaEntry ∅ None))
    = group_remove_member no_differences.
Proof.
  apply (unknown_user_memberships no_differences staff_new (IpaEntry ∅ None)).
  vm_compute. reflexivity.
Defined.

(** ** The commands that planning starts *)

Lemma check_group_started run descs acc g :
  started (check_group run descs acc g) =
    match run (group_show g) with
    | Exit _ => [group_show g]
    | OSError => []
    end.
Proof.
  unfold check_group, subprocess_call, mbind, proc_bind.
  destruct (run (group_show g)) as [status|]; simpl; [|done].
  by destruct (bool_decide (status ≠ 0%Z)).
Qed.

Lemma resolver_loop_started run descs acc l :
  started (for_each (check_group run descs) acc l)
    `prefix_of` group_show <$> l ∧
  (is_Some (value (for_each (check_group run descs) acc l)) →
     started (for_each (check_group run descs) acc l) = group_show <$> l).
Proof.
  revert acc. induction l as [|g l IH]; intros acc.
  { split; [apply prefix_nil|done]. }
  simpl. unfold mbind, proc_bind at 1 2 3.
  pose proof (check_group_started run descs acc g) as Hs.
  pose proof (check_group_value run descs acc g) as Hv.
  destruct (run (group_show g)) as [status|].
  - rewrite Hv, Hs. simpl. destruct (IH
      (if bool_decide (status ≠ 0%Z)
       then <[g := description_args descs g]> acc else acc)) as [IHp IHv].
    split; [by apply prefix_cons|]. intros H. by rewrite IHv.
  - rewrite Hv, Hs. simpl. split; [apply prefix_nil|]. by intros [? ?].
Qed.

Lemma group_show_inj g1 g2 : group_show g1 = group_show g2 → g1 = g2.
Proof. by intros [= ?]. Qed.

Lemma prefix_NoDup {A} (l1 l2 : list A) :
  l1 `prefix_of` l2 → NoDup l2 → NoDup l1.
Proof. intros [k ->] H. by apply NoDup_app in H as [? _]. Qed.

(** X15: [find_group_changes] only asks, whatever the order in which its
    loop visits the keys of [group-add-member]: the commands that it starts
    are existence checks [ipa group-show] of such keys, in the order of the
    visit, no group is checked twice, and when every check can be started
    each key is checked once. *)
Theorem find_group_changes_only_checks (run : list string → outcome)
    (d : differences) (group_descriptions : gmap string string)
    (groups : list string) :
  groups ≡ₚ elements (dom (group_add_member d)) →
  let t := started (find_group_changes_in run groups group_descriptions) in
  t `prefix_of` group_show <$> groups ∧
  NoDup t ∧
  (∀ argv, argv ∈ t →
     ∃ group, group ∈ dom (group_add_member d) ∧ argv = group_show group) ∧
  ((∀ group, group ∈ dom (group_add_member d) →
      run (group_show group) ≠ OSError) →
   t = group_show <$> groups).
Proof.
  intros Hgroups t.
  destruct (resolver_loop_started run group_descriptions ∅ groups)
    as [Hp Hv].
  fold (find_group_changes_in run groups group_descriptions) in Hp, Hv.
  fold t in Hp, Hv.
  assert (∀ g, g ∈ groups ↔ g ∈ dom (group_add_member d)) as Hin.
  { intros g. by rewrite Hgroups, elem_of_elements. }
  split; [exact Hp|]. split; [|split].
  - apply (prefix_NoDup _ _ Hp).
    apply NoDup_fmap_2; [intros ? ?; apply group_show_inj|].
    rewrite Hgroups. apply NoDup_elements.
  - intros argv Ha. destruct Hp as [k Hk].
    assert (argv ∈ group_show <$> groups) as H.
    { rewrite Hk. apply elem_of_app. by left. }
    apply list_elem_of_fmap in H as (g & -> & Hg).
    exists g. split; [by apply Hin|done].
  - intros Hrun. apply Hv.
    apply resolver_loop_completes. intros g Hg. apply Hrun. by apply Hin.
Qed.

Lemma two_groups_visit :
  ["team"; "buero"]
    ≡ₚ elements (dom (group_add_member two_groups_differences)).
Proof.
  assert (elements (dom (group_add_member two_groups_differences))
          = ["buero"; "team"]) as -> by (vm_compute; reflexivity).
  apply perm_swap.
Defined.

Lemma find_group_changes_only_checks_witness :
  started (find_group_changes_in no_group_tool ["team"; "buero"] ∅)
    = [group_show "team"; group_show "buero"].
Proof.
  apply (proj2 (proj2 (proj2
           (find_group_changes_only_checks no_group_tool
              two_groups_differences ∅ ["team"; "buero"]
              two_groups_visit)))).
  intros group _. discriminate.
Defined.

(** ** A command that cannot be started *)

Section Raise.

Variable run : list string → outcome.

Lemma before_raise_all l :
  Forall (λ argv, run argv ≠ OSError) l → before_raise run l = l.
Proof.
  induction 1 as [|argv l Ha _ IH]; [done|]. simpl.
  destruct (run argv); [by rewrite IH|done].
Qed.

Lemma before_raise_app_all l1 l2 :
  Forall (λ argv, run argv ≠ OSError) l1 →
  before_raise run (l1 ++ l2)%list = (l1 ++ before_raise run l2)%list.
Proof.
  induction 1 as [|argv l Ha _ IH]; [done|]. simpl.
  destruct (run argv); [by rewrite IH|done].
Qed.

Lemma before_raise_app_raise l1 l2 :
  ¬ Forall (λ argv, run argv ≠ OSError) l1 →
  before_raise run (l1 ++ l2)%list = before_raise run l1.
Proof.
  induction l1 as [|argv l IH]; intros Hn.
  { exfalso. apply Hn. apply Forall_nil_2. }
  simpl. destruct (run argv) eqn:E; [|done]. f_equal. apply IH.
  intros H. apply Hn. apply Forall_cons_2; [by rewrite E|done].
Qed.

Lemma for_each_before_raise {A} (body : () → A → proc ())
    (full : A → list (list string)) (l : list A) :
  (∀ x, started (body () x) = before_raise run (full x) ∧
        (is_Some (value (body () x)) ↔
         Forall (λ argv, run argv ≠ OSError) (full x))) →
  started (for_each body () l) = before_raise run (mjoin (full <$> l)) ∧
  (is_Some (value (for_each body () l)) ↔
   Forall (λ argv, run argv ≠ OSError) (mjoin (full <$> l))).
Proof.
  intros Hbody. induction l as [|x l [IHs IHv]].
  { split; [done|]. split; [intros _; apply Forall_nil_2|by eexists]. }
  destruct (Hbody x) as [Hs Hv].
  simpl. unfold mbind, proc_bind.
  destruct (value (body () x)) as [[]|] eqn:E; simpl.
  - assert (Forall (λ argv, run argv ≠ OSError) (full x)) as Hok
      by (apply Hv; by eexists).
    rewrite before_raise_app_all, Hs, IHs, (before_raise_all _ Hok) by done.
    split; [done|]. rewrite Forall_app, IHv. naive_solver.
  - assert (¬ Forall (λ argv, run argv ≠ OSError) (full x)) as Hno.
    { intros H. apply Hv in H as [? ?]. done. }
    rewrite before_raise_app_raise by done. split; [done|].
    rewrite Forall_app. split; [by intros [? ?]|]. by intros [? _].
Qed.

Lemma commit_item_before_raise c item :
  started (commit_item run c () item)
    = before_raise run [command_line c item] ∧
  (is_Some (value (commit_item run c () item)) ↔
   Forall (λ argv, run argv ≠ OSError) [command_line c item]).
Proof.
  unfold commit_item, subprocess_call, mbind, proc_bind. simpl.
  rewrite Forall_singleton.
  destruct (run (command_line c item)) eqn:E; simpl.
  - split; [done|]. split; [done|]. by eexists.
  - split; [done|]. split; [by intros [? ?]|done].
Qed.

Lemma commit_changes_in_before_raise items :
  started (commit_changes_in run items)
    = before_raise run (command_lines_in items) ∧
  (is_Some (value (commit_changes_in run items)) ↔
   Forall (λ argv, run argv ≠ OSError) (command_lines_in items)).
Proof.
  unfold commit_changes_in, command_lines_in.
  apply (for_each_before_raise
           (λ _ c, for_each (commit_item run c) () (items c))
           (λ c, command_line c <$> items c)).
  intros c. rewrite <-join_singletons.
  apply for_each_before_raise. intros item. apply commit_item_before_raise.
Qed.

End Raise.

(** X17: [commit_changes] pays no attention to the exit status of a
    command: whatever the order in which the loop over a category visits
    the items, it goes through the command lines of the plan, category
    after category and each category in the order of the visit, until one
    cannot be started, and starts nothing after that one; it completes
    exactly when every command line of the plan can be started. *)
Theorem commit_changes_stops_at_raise (run : list string → outcome)
    (ch : changes) (items : command → list (string * list string)) :
  (∀ c, items c ≡ₚ map_to_list (changes_get ch c)) →
  started (commit_changes_in run items)
    = before_raise run
        (mjoin ((λ c, command_line c <$> items c)
                  <$> [UserAdd; UserMod; GroupAdd; GroupAddMember;
                       GroupRemoveMember])) ∧
  (value (commit_changes_in run items) = Some () ↔
   ∀ c key args, changes_get ch c !! key = Some args →
                 run (command_line c (key, args)) ≠ OSError).
Proof.
  intros Hitems.
  destruct (commit_changes_in_before_raise run items) as [Hs Hv].
  split; [exact Hs|].
  assert (value (commit_changes_in run items) = Some ()
            ↔ is_Some (value (commit_changes_in run items))) as ->.
  { split; [by eexists|]. by intros [[] ?]. }
  rewrite Hv, Forall_forall. split.
  - intros H c key args Hk. apply H. by apply (command_lines_in_elem ch).
  - intros H argv (c & key & args & Hk & ->)%(command_lines_in_inv ch);
      [|done].
    by apply H.
Qed.

Lemma commit_changes_stops_at_raise_witness :
  started (commit_changes_in no_team_tool two_groups_items) = [] ∧
  value (commit_changes_in (λ _, Exit 1) two_groups_items) = Some ().
Proof.
  split.
  - exact (proj1 (commit_changes_stops_at_raise no_team_tool two_groups_plan
                    two_groups_items two_groups_items_visit)).
  - apply (proj2 (commit_changes_stops_at_raise (λ _, Exit 1) two_groups_plan
                    two_groups_items two_groups_items_visit)).
    intros c key args _. discriminate.
Defined.

(** ** Reading the roster *)

Lemma cell_is_Some line key column :
  CSV_MAP !! key = Some column →
  (is_Some (cell line key) ↔ (column < length line)%nat) ∧
  cell line key = line !! column.
Proof.
  intros H. unfold cell. rewrite H. simpl. split; [|done].
  apply lookup_lt_is_Some.
Qed.

Lemma read_entry_is_Some line :
  is_Some (read_entry line) ↔ (13 ≤ length line)%nat.
Proof.
  unfold read_entry.
  destruct (cell_is_Some line "member_of_groups" 12 eq_refl) as [H12 _].
  destruct (cell_is_Some line "user_login" 5 eq_refl) as [H5 _].
  destruct (cell_is_Some line "first_name" 6 eq_refl) as [H6 _].
  destruct (cell_is_Some line "last_name" 7 eq_refl) as [H7 _].
  destruct (cell_is_Some line "email_address" 8 eq_refl) as [H8 _].
  destruct (cell_is_Some line "telephone_number" 9 eq_refl) as [H9 _].
  destruct (cell_is_Some line "mobile_telephone_number" 10 eq_refl)
    as [H10 _].
  split.
  - intros [e He]. apply H12.
    destruct (cell line "member_of_groups"); [by eexists|done].
  - intros Hlen.
    destruct (cell line "member_of_groups");
      [|by destruct (proj2 H12 ltac:(lia))].
    destruct (cell line "user_login"); [|by destruct (proj2 H5 ltac:(lia))].
    destruct (cell line "first_name"); [|by destruct (proj2 H6 ltac:(lia))].
    destruct (cell line "last_name"); [|by destruct (proj2 H7 ltac:(lia))].
    destruct (cell line "email_address");
      [|by destruct (proj2 H8 ltac:(lia))].
    destruct (cell line "telephone_number");
      [|by destruct (proj2 H9 ltac:(lia))].
    destruct (cell line "mobile_telephone_number");
      [|by destruct (proj2 H10 ltac:(lia))].
    by eexists.
Qed.

Lemma read_entry_cells line e :
  read_entry line = Some e →
  line !! 12 = Some (member_of_groups e) ∧ line !! 5 = Some (user_login e) ∧
  line !! 6 = Some (first_name e) ∧ line !! 7 = Some (last_name e) ∧
  line !! 8 = Some (email_address e) ∧
  line !! 9 = Some (telephone_number e) ∧
  line !! 10 = Some (mobile_telephone_number e).
Proof.
  unfold read_entry.
  rewrite (proj2 (cell_is_Some line "member_of_groups" 12 eq_refl)).
  rewrite (proj2 (cell_is_Some line "user_login" 5 eq_refl)).
  rewrite (proj2 (cell_is_Some line "first_name" 6 eq_refl)).
  rewrite (proj2 (cell_is_Some line "last_name" 7 eq_refl)).
  rewrite (proj2 (cell_is_Some line "email_address" 8 eq_refl)).
  rewrite (proj2 (cell_is_Some line "telephone_number" 9 eq_refl)).
  rewrite (proj2 (cell_is_Some line "mobile_telephone_number" 10 eq_refl)).
  destruct (line !! 12); [|done]. destruct (line !! 5); [|done].
  destruct (line !! 6); [|done]. destruct (line !! 7); [|done].
  destruct (line !! 8); [|done]. destruct (line !! 9); [|done].
  destruct (line !! 10); [|done]. simpl. by intros [= <-].
Qed.

(** X1: [read_csv_file] gives a result exactly when the file has a header line
    and every line after it has at least 13 cells; the result then has one
    entry for each line after the header, in order, whose fields are the
    cells 5 to 10 and 12 of the line.  One short line, for instance an
    empty one, makes the whole reading fail. *)
Theorem read_csv_file_spec (lines : list (list string)) :
  (is_Some (read_csv_file lines) ↔
   lines ≠ [] ∧ Forall (λ line, (13 ≤ length line)%nat) (tail lines)) ∧
  ∀ entries, read_csv_file lines = Some entries →
    length entries = (length lines - 1)%nat ∧
    ∀ (i : nat) e, entries !! i = Some e →
      ∃ line, lines !! S i = Some line ∧
        line !! 5 = Some (user_login e) ∧
        line !! 6 = Some (first_name e) ∧
        line !! 7 = Some (last_name e) ∧
        line !! 8 = Some (email_address e) ∧
        line !! 9 = Some (telephone_number e) ∧
        line !! 10 = Some (mobile_telephone_number e) ∧
        line !! 12 = Some (member_of_groups e).
Proof.
  destruct lines as [|header lines]; simpl.
  { split; [|done]. split; [by intros [? ?]|by intros [? _]]. }
  split.
  - rewrite mapM_is_Some. split.
    + intros H. split; [done|].
      eapply Forall_impl; [exact H|]. intros line. apply read_entry_is_Some.
    + intros [_ H]. eapply Forall_impl; [exact H|].
      intros line. apply read_entry_is_Some.
  - intros entries H. apply mapM_Some in H. split.
    + apply Forall2_length in H. lia.
    + intros i e He.
      destruct (Forall2_lookup_r _ _ _ _ _ H He) as (line & Hline & Hread).
      exists line. split; [done|].
      apply read_entry_cells in Hread. naive_solver.
Qed.

Lemma read_csv_file_spec_witness :
  is_Some (read_csv_file [[]; thirteen_cells]).
Proof.
  apply (proj1 (read_csv_file_spec [[]; thirteen_cells])).
  split; [done|]. apply Forall_cons_2; [|apply Forall_nil_2].
  vm_compute. done.
Defined.

(** ** Reading the answer of the directory *)

Lemma split_once_spec sep s :
  if Str.contains sep s
  then ∃ key val, split_once sep s = [key; val] ∧
                  s = key ++ String sep val ∧ Str.contains sep key = false
  else split_once sep s = [s].
Proof.
  induction s as [|c s IH]; [done|]. simpl.
  destruct (Ascii.eqb c sep) eqn:E; simpl.
  - apply Ascii.eqb_eq in E as ->. by exists EmptyString, s.
  - destruct (Str.contains sep s).
    + destruct IH as (key & val & -> & -> & Hk).
      exists (String c key), val. simpl. by rewrite E, Hk.
    + by rewrite IH.
Qed.

Lemma parse_line_is_Some line :
  is_Some (parse_line line) ↔ Str.contains ":" line = true.
Proof.
  unfold parse_line. pose proof (split_once_spec ":" line) as H.
  destruct (Str.contains ":" line).
  - destruct H as (key & val & -> & _). split; [done|]. by eexists.
  - rewrite H. split; [by intros [? ?]|done].
Qed.

Lemma key_char_lowered d :
  is_lowered d = true →
  all_chars (λ c, is_lowered c && negb (Ascii.eqb c " "))
    (if Ascii.eqb d " " then "_" else String d EmptyString) = true.
Proof. each_char_implies d. Qed.

Lemma parse_line_Some line key v :
  parse_line line = Some (key, v) →
  Str.strip v = v ∧
  all_chars (λ c, is_lowered c && negb (Ascii.eqb c " ")) key = true.
Proof.
  unfold parse_line. destruct (split_once ":" line) as [|k [|w [|? ?]]];
    [done..| |done].
  intros [= <- <-]. split; [apply StrFacts.strip_idemp|].
  unfold Str.replace, Str.lower.
  apply (all_chars_expand is_lowered); [apply key_char_lowered|].
  apply (all_chars_expand (λ _, true));
    [intros d _; apply lower_char_lowered|].
  apply all_chars_true.
Qed.

Lemma parse_lines_is_Some entry lines :
  is_Some (parse_lines entry lines) ↔
  Forall (λ line, Str.contains ":" line = true) lines.
Proof.
  revert entry. induction lines as [|line lines IH]; intros entry; simpl.
  { split; [intros _; apply Forall_nil_2|by eexists]. }
  rewrite Forall_cons, <-parse_line_is_Some.
  destruct (parse_line line) as [kv|]; simpl.
  - rewrite IH. split; [by split; [eexists|]|by intros [_ ?]].
  - split; [by intros [? ?]|by intros [[? ?] _]].
Qed.

Lemma parse_lines_lookup entry lines result key v :
  parse_lines entry lines = Some result → result !! key = Some v →
  entry !! key = Some v ∨
  ∃ line, line ∈ lines ∧ parse_line line = Some (key, v).
Proof.
  revert entry. induction lines as [|line lines IH]; intros entry; simpl.
  { intros [= <-] H. by left. }
  destruct (parse_line line) as [[k w]|] eqn:E; simpl; [|done].
  intros H Hk. destruct (IH _ H Hk) as [Hl|(line' & Hin & Hp)].
  - destruct (decide (k = key)) as [->|Hne].
    + rewrite lookup_insert_eq in Hl. injection Hl as ->.
      right. exists line. split; [left|done].
    + rewrite lookup_insert_ne in Hl by done. by left.
  - right. exists line'. split; [by right|done].
Qed.

(** X9: [parse_freeipa_output] gives a dict exactly when every line of the
    stripped output has a colon; an output that is empty or blank has no
    such line and makes it fail.  In the dict every value is stripped,
    every key is lowercase and without space, and both come from one line
    of the output. *)
Theorem parse_freeipa_output_spec (output : string) :
  (is_Some (parse_freeipa_output output) ↔
   Forall (λ line, Str.contains ":" line = true)
          (Str.split newline (Str.strip output))) ∧
  (Str.strip output = "" → parse_freeipa_output output = None) ∧
  ∀ entry key v,
    parse_freeipa_output output = Some entry → entry !! key = Some v →
    Str.strip v = v ∧
    all_chars (λ c, is_lowered c && negb (Ascii.eqb c " ")) key = true ∧
    ∃ line, line ∈ Str.split newline (Str.strip output) ∧
            parse_line line = Some (key, v).
Proof.
  unfold parse_freeipa_output. split; [apply parse_lines_is_Some|]. split.
  - intros ->. reflexivity.
  - intros entry key v H Hk.
    destruct (parse_lines_lookup _ _ _ _ _ H Hk) as [He|(line & Hin & Hp)].
    { by rewrite lookup_empty in He. }
    destruct (parse_line_Some _ _ _ Hp) as [Hv Hkey].
    split; [done|]. split; [done|]. by exists line.
Qed.

Lemma parse_freeipa_output_spec_witness :
  parse_freeipa_output "  " = None ∧
  is_Some (parse_freeipa_output "  User login: ann").
Proof.
  split.
  - apply (proj1 (proj2 (parse_freeipa_output_spec "  "))). reflexivity.
  - apply (proj1 (parse_freeipa_output_spec "  User login: ann")).
    vm_compute. apply Forall_cons_2; [reflexivity|apply Forall_nil_2].
Defined.

(** ** The confirmation *)

Lemma confirm_skip run ch skipped answers :
  Forall (λ a, Str.lower a ≠ "y" ∧ Str.lower a ≠ "n") skipped →
  confirm run ch (skipped ++ answers) = confirm run ch answers.
Proof.
  induction 1 as [|a skipped [Hy Hn] _ IH]; [done|]. simpl.
  apply String.eqb_neq in Hy, Hn. rewrite Hy, Hn.
  by destruct (String.eqb (Str.lower a) "d").
Qed.

Lemma confirm_without_yes run ch answers :
  Forall (λ a, Str.lower a ≠ "y") answers →
  started (confirm run ch answers) = [] ∧
  (value (confirm run ch answers) = Some (SystemExit 2) ∨
   value (confirm run ch answers) = Some EOFError).
Proof.
  induction 1 as [|a answers Hy _ IH]; [by split; [|right]|]. simpl.
  apply String.eqb_neq in Hy. rewrite Hy.
  destruct (String.eqb (Str.lower a) "n"); [by split; [|left]|].
  by destruct (String.eqb (Str.lower a) "d").
Qed.

Lemma main_unfold run user_show rows answers :
  main run user_show rows answers =
    match value (main_changes run user_show rows) with
    | None => Proc None (started (main_changes run user_show rows))
    | Some ch =>
        if no_changes ch
        then Proc (Some (SystemExit 0))
                  (started (main_changes run user_show rows))
        else Proc (value (confirm run ch answers))
                  (started (main_changes run user_show rows)
                   ++ started (confirm run ch answers))%list
    end.
Proof.
  unfold main, mbind, proc_bind at 1.
  destruct (value (main_changes run user_show rows)) as [ch|]; [|done].
  destruct (no_changes ch); [|done]. simpl. by rewrite app_nil_r.
Qed.

(** X18: Nothing is written without a yes: when no answer is [y] or [Y], the
    commands that [main] starts are those of the planning, that is, only
    existence checks.  When the plan is empty, [main] asks nothing and
    ends with status 0 whatever the answers are. *)
Theorem main_writes_only_after_yes (run : list string → outcome)
    (user_show : string → gmap string string)
    (rows : list (csv_entry string)) (answers : list string) :
  (Forall (λ a, Str.lower a ≠ "y") answers →
   started (main run user_show rows answers)
     = started (main_changes run user_show rows)) ∧
  (∀ ch, value (main_changes run user_show rows) = Some ch →
     no_changes ch = true →
     main run user_show rows answers
       = Proc (Some (SystemExit 0))
              (started (main_changes run user_show rows))).
Proof.
  rewrite main_unfold. split.
  - intros H.
    destruct (value (main_changes run user_show rows)) as [ch|]; [|done].
    destruct (no_changes ch); [done|]. simpl.
    rewrite (proj1 (confirm_without_yes run ch answers H)).
    by rewrite app_nil_r.
  - intros ch -> ->. done.
Qed.

Lemma main_writes_only_after_yes_witness :
  started (main no_group_tool empty_directory punctuation_batch ["d"; "N"])
    = started (main_changes no_group_tool empty_directory punctuation_batch).
Proof.
  apply (proj1 (main_writes_only_after_yes no_group_tool empty_directory
                  punctuation_batch ["d"; "N"])).
  repeat (apply Forall_cons_2; [vm_compute; discriminate|]).
  apply Forall_nil_2.
Defined.

(** X19: The first answer that is [y] or [n], in either case, decides: answers
    before it are passed over; on [n] the run ends with status 2 and only
    the planning has started commands; on [y] the plan is committed, and
    the run ends with status 0 when every command of the plan could be
    started.  When the answers run out before a decision, [input] fails. *)
Theorem main_first_answer_decides (run : list string → outcome)
    (user_show : string → gmap string string)
    (rows : list (csv_entry string)) (ch : changes)
    (skipped : list string) (answer : string) (rest : list string) :
  value (main_changes run user_show rows) = Some ch →
  no_changes ch = false →
  Forall (λ a, Str.lower a ≠ "y" ∧ Str.lower a ≠ "n") skipped →
  (Str.lower answer = "n" →
   main run user_show rows (skipped ++ answer :: rest)
     = Proc (Some (SystemExit 2))
            (started (main_changes run user_show rows))) ∧
  (Str.lower answer = "y" →
   main run user_show rows (skipped ++ answer :: rest)
     = Proc (match value (commit_changes run ch) with
             | Some _ => Some (SystemExit 0)
             | None => None
             end)
            (started (main_changes run user_show rows)
             ++ started (commit_changes run ch))) ∧
  main run user_show rows skipped
    = Proc (Some EOFError) (started (main_changes run user_show rows)).
Proof.
  intros Hch Hne Hskip. rewrite !main_unfold, Hch, Hne.
  rewrite !confirm_skip by done.
  split; [|split].
  - intros Hn. simpl. rewrite Hn. simpl. by rewrite app_nil_r.
  - intros Hy. simpl. rewrite Hy. simpl.
    unfold mbind, proc_bind.
    destruct (value (commit_changes run ch)); simpl; [|done].
    by rewrite app_nil_r.
  - rewrite <-(app_nil_r skipped), confirm_skip by done. simpl.
    by rewrite app_nil_r.
Qed.

Lemma main_first_answer_decides_witness :
  main no_group_tool empty_directory punctuation_batch
       (["d"; "what"] ++ "N" :: ["y"])
    = Proc (Some (SystemExit 2))
           (started (main_changes no_group_tool empty_directory
                       punctuation_batch)).
Proof.
  apply (proj1 (main_first_answer_decides no_group_tool empty_directory
                  punctuation_batch punctuation_plan ["d"; "what"] "N" ["y"]
                  ltac:(vm_compute; reflexivity)
                  ltac:(vm_compute; reflexivity)
                  ltac:(repeat (apply Forall_cons_2;
                                [split; vm_compute; discriminate|]);
                        apply Forall_nil_2))).
  vm_compute. reflexivity.
Defined.

(** ** Segments, keys and pairs *)

(** X6: The normalisation of a group field neither makes nor loses a
    separator: a field has as many normalised segments as original ones,
    and the pairs handed to the catalogue couple the segments position by
    position, none left out. *)
Theorem segments_stay_aligned (raw : string) :
  length (group_names raw)
    = length (Str.split GROUP_SEP (original_group_name raw)) ∧
  (description_pairs raw).*1 = group_names raw ∧
  (description_pairs raw).*2
    = Str.split GROUP_SEP (original_group_name raw).
Proof.
  assert (length (group_names raw)
            = length (Str.split GROUP_SEP (original_group_name raw))) as H.
  { unfold group_names.
    by rewrite !StrFacts.length_split, group_name_separators. }
  split; [exact H|]. unfold description_pairs.
  split; [apply fst_zip|apply snd_zip]; lia.
Qed.

(** X7: Every key of the catalogue other than the empty string is a group id
    of some entry, and every group id of an entry is a key of the
    catalogue. *)
Theorem catalogue_keys_are_ids (rows : list (csv_entry string))
    (id : string) :
  id ≠ "" →
  id ∈ dom (fix_csv_group_names rows).2 ↔
  ∃ entry, entry ∈ (fix_csv_group_names rows).1 ∧ id ∈ member_of_groups entry.
Proof. apply catalogue_keys_nonempty. Qed.

Lemma catalogue_keys_are_ids_witness :
  "team" ∈ dom (fix_csv_group_names punctuation_batch).2 ↔
  ∃ entry, entry ∈ (fix_csv_group_names punctuation_batch).1 ∧
           "team" ∈ member_of_groups entry.
Proof.
  apply (catalogue_keys_are_ids punctuation_batch "team"). discriminate.
Defined.

(** X11: In [main] no roster entry stays without partner: the directory is
    asked once for every entry, so both sequences have one length, and the
    entry at a position is paired with the answer of the directory for its
    own login. *)
Theorem main_pairs_every_entry (user_show : string → gmap string string)
    (rows : list (csv_entry string)) :
  length (csv_entries_of rows) = length rows ∧
  length (ipa_entries_of user_show (csv_entries_of rows)) = length rows ∧
  ∀ (i : nat) new, csv_entries_of rows !! i = Some new →
    zip (csv_entries_of rows)
        (ipa_entries_of user_show (csv_entries_of rows)) !! i
      = Some (new, fix_ipa_group (user_show (user_login new))).
Proof.
  assert (length (csv_entries_of rows) = length rows) as Hlen.
  { unfold csv_entries_of, fix_csv_zero_entries, fix_csv_emails,
      fix_csv_group_names.
    by rewrite fix_csv_group_names_from_entries, !length_fmap. }
  split; [exact Hlen|]. rewrite ipa_entries_of_fmap. split.
  - by rewrite length_fmap.
  - intros i new Hi. apply lookup_zip_with_Some.
    exists new, (fix_ipa_group (user_show (user_login new))).
    split; [done|]. split; [done|]. by rewrite list_lookup_fmap, Hi.
Qed.

Lemma main_pairs_every_entry_witness :
  zip (csv_entries_of settled_batch)
      (ipa_entries_of settled_directory (csv_entries_of settled_batch)) !! 0
    = Some (CsvEntry {[ "staff" ]} "ann" " Ann " "Lee" "" "" "",
            fix_ipa_group (settled_directory "ann")).
Proof.
  apply (proj2 (proj2 (main_pairs_every_entry settled_directory
                         settled_batch)) 0
           (CsvEntry {[ "staff" ]} "ann" " Ann " "Lee" "" "" "")).
  vm_compute. reflexivity.
Defined.

(** ** The order of the visit and the plan *)

Lemma resolver_loop_raises_inv run descs acc l :
  value (for_each (check_group run descs) acc l) = None →
  ∃ g, g ∈ l ∧ run (group_show g) = OSError.
Proof.
  revert acc. induction l as [|x l IH]; intros acc; [done|].
  simpl. unfold mbind, proc_bind at 1.
  destruct (value (check_group run descs acc x)) as [acc'|] eqn:E; simpl.
  - intros (g & Hg & Hrun)%IH. exists g. split; [by right|done].
  - intros _. exists x. split; [left|].
    rewrite check_group_value in E. by destruct (run (group_show x)).
Qed.

(** X20: the dict that [find_group_changes] returns does not depend on the
    order in which its loop visits the groups: two visits of the same
    groups either both fail or give the same dict. *)
Theorem find_group_changes_any_order (run : list string → outcome)
    (group_descriptions : gmap string string) (groups1 groups2 : list string) :
  groups1 ≡ₚ groups2 →
  value (find_group_changes_in run groups1 group_descriptions)
    = value (find_group_changes_in run groups2 group_descriptions).
Proof.
  intros Hperm. unfold find_group_changes_in.
  assert (∀ g, g ∈ groups1 ↔ g ∈ groups2) as Hin
    by (intros g; by rewrite Hperm).
  destruct (value (for_each (check_group run group_descriptions) ∅ groups1))
    as [m1|] eqn:E1;
    destruct (value (for_each (check_group run group_descriptions) ∅ groups2))
      as [m2|] eqn:E2; [|exfalso..|done].
  - f_equal. apply map_eq. intros g.
    rewrite (resolver_loop_lookup _ _ _ _ _ g E1).
    rewrite (resolver_loop_lookup _ _ _ _ _ g E2).
    destruct (run (group_show g)) as [status|]; [|done].
    destruct (decide (g ∈ groups1 ∧ status ≠ 0%Z)) as [[H1 Hs]|Hn].
    + rewrite decide_True; [done|]. split; [by apply Hin|done].
    + rewrite decide_False; [done|]. intros [H2 Hs]. apply Hn.
      split; [by apply Hin|done].
  - apply resolver_loop_raises_inv in E2 as (g & Hg & Hrun).
    apply Hin in Hg.
    by rewrite (resolver_loop_raises _ _ _ _ g Hg Hrun) in E1.
  - apply resolver_loop_raises_inv in E1 as (g & Hg & Hrun).
    apply Hin in Hg.
    by rewrite (resolver_loop_raises _ _ _ _ g Hg Hrun) in E2.
Qed.

Lemma find_group_changes_any_order_witness :
  value (find_group_changes_in no_group_tool ["team"; "buero"] ∅)
    = value (find_group_changes no_group_tool two_groups_differences ∅).
Proof.
  exact (find_group_changes_any_order no_group_tool ∅ ["team"; "buero"]
           (elements (dom (group_add_member two_groups_differences)))
           two_groups_visit).
Defined.
